(** * Hermes: full-text search cache -- shallow embedding and properties

    The repository holds three generations of the same program:

    - [FTS]      (package hermes, the search file): an index from words to
                 positions in a slice of JSON records, with the search
                 functions [_Search], [_SearchWithSpaces], [_SearchInJson]
                 and [_SearchInJsonWithKey];
    - [Hermes]   (package hermes, the init file): [FTInit], [FTInitWithMap],
                 [FTInitWithJson] and [FullText.insert];
    - [Cache]    (package cache, ft_init.go): [InitFT], [InitFTWithMap],
                 [InitFTWithJson].

    Go maps are reference objects.  They are modelled by a heap of map
    objects addressed by locations; a map-typed Go value is a reference
    ([mapref]), [None] being Go's nil map.  A run-time panic is the result
    [None] of a function returning [option]. *)

From Stdlib Require Import ZArith Lia Ascii.
From stdpp Require Import base option list gmap strings.

#[local] Set Warnings "-clear-no-such-hyp".

(** ** Go's built-in and standard-library operations used by the code *)
Module Go.

(** Locations of map objects. *)
Abbreviation loc := positive.

(** A value of a Go map type: a reference to a map object, or nil. *)
Abbreviation mapref := (option loc).

(** [m[k]]-style reads go through [deref]: a nil map reads as the empty
    map (and so does a reference that has no object). *)
Definition deref {V} (h : gmap loc (gmap string V)) (r : mapref) : gmap string V :=
  match r with
  | Some l => default ∅ (h !! l)
  | None => ∅
  end.

(** [r[k] = v]: assignment to an entry of a nil map panics. *)
Definition store {V} (h : gmap loc (gmap string V)) (r : mapref) (k : string) (v : V)
  : option (gmap loc (gmap string V)) :=
  match r with
  | Some l =>
      match h !! l with
      | Some m => Some (<[l := <[k := v]> m]> h)
      | None => None
      end
  | None => None
  end.

(** [s[i]] on a slice with an [int] index: out of range panics. *)
Definition index {A} (s : list A) (i : Z) : option A :=
  if (i <? 0)%Z then None else s !! Z.to_nat i.

(** [s[i] = x] on a slice. *)
Definition set_index {A} (s : list A) (i : Z) (x : A) : option (list A) :=
  if (i <? 0)%Z then None
  else if decide (Z.to_nat i < length s)%nat then Some (<[Z.to_nat i := x]> s)
  else None.

(** [len(s)] of a slice or of a string, as a Go [int]. *)
Definition len {A} (s : list A) : Z := Z.of_nat (length s).
Definition slen (s : string) : Z := Z.of_nat (String.length s).

(** [unicode.IsSpace] on the UTF-8 encoding: the one-, two- and three-byte
    encodings of the code points with the White_Space property
    (U+0009..U+000D, U+0020, U+0085, U+00A0, U+1680, U+2000..U+200A,
    U+2028, U+2029, U+202F, U+205F, U+3000). *)
Definition is_space1 (c : ascii) : bool :=
  let n := Ascii.N_of_ascii c in
  ((9 <=? n) && (n <=? 13) || (n =? 32))%N.

Definition is_space2 (c1 c2 : ascii) : bool :=
  let n1 := Ascii.N_of_ascii c1 in
  let n2 := Ascii.N_of_ascii c2 in
  ((n1 =? 194) && ((n2 =? 133) || (n2 =? 160)))%N.

Definition is_space3 (c1 c2 c3 : ascii) : bool :=
  let n1 := Ascii.N_of_ascii c1 in
  let n2 := Ascii.N_of_ascii c2 in
  let n3 := Ascii.N_of_ascii c3 in
  ((n1 =? 225) && (n2 =? 154) && (n3 =? 128)
   || (n1 =? 226) && (n2 =? 128)
      && ((128 <=? n3) && (n3 <=? 138) || (n3 =? 168) || (n3 =? 169) || (n3 =? 175))
   || (n1 =? 226) && (n2 =? 129) && (n3 =? 159)
   || (n1 =? 227) && (n2 =? 128) && (n3 =? 128))%N.

(** Strip the white space at the front of [s].  With [fwd = false] the
    string is read back to front (the bytes of a rune come last first). *)
Fixpoint trim_front (fwd : bool) (s : string) : string :=
  match s with
  | String c1 s1 =>
      if is_space1 c1 then trim_front fwd s1
      else
        match s1 with
        | String c2 s2 =>
            if (if fwd then is_space2 c1 c2 else is_space2 c2 c1)
            then trim_front fwd s2
            else
              match s2 with
              | String c3 s3 =>
                  if (if fwd then is_space3 c1 c2 c3 else is_space3 c3 c2 c1)
                  then trim_front fwd s3
                  else s
              | EmptyString => s
              end
        | EmptyString => s
        end
  | EmptyString => s
  end.

(** [strings.TrimSpace] *)
Definition TrimSpace (s : string) : string :=
  String.rev (trim_front false (String.rev (trim_front true s))).

(** [strings.Split(s, " ")]: the pieces between the single-space bytes;
    never the empty slice. *)
Fixpoint Split (s : string) : list string :=
  match s with
  | EmptyString => [EmptyString]
  | String c s' =>
      if Ascii.eqb c " "%char then EmptyString :: Split s'
      else
        match Split s' with
        | w :: ws => String c w :: ws
        | [] => [String c EmptyString]
        end
  end.

End Go.

(** ** The search file: an index over a slice of JSON records *)
Module FTS.
Import Go.

(** [type FTS struct]: [json []map[string]string], [cache map[string][]int],
    [keys []string] (the lock is not modelled: every function below is the
    body run under it). *)
Record FTS := mkFTS {
    json : list mapref;
    cache : gmap string (list Z);
    keys : list string
  }.

(** The heap of [map[string]string] objects the records live in. *)
Abbreviation heap := (gmap loc (gmap string string)).

Section Search.
(** The two string helpers are defined outside the files at hand. *)
Variable _Contains : string → string → bool.
Variable _ContainsIgnoreCase : string → string → bool.

(** The state of the two loops of [_Search]: [result] and [indices]. *)
Abbreviation acc := (list mapref * list Z)%type.

(** The inner loop of [_Search] over one posting. *)
Fixpoint search_posting (fts : FTS) (posting : list Z) (st : acc) : option acc :=
  match posting with
  | [] => Some st
  | index :: rest =>
      match Go.index st.2 index with
      | None => None
      | Some seen =>
          if (seen =? -1)%Z then search_posting fts rest st
          else
            match Go.index (json fts) index, Go.set_index st.2 index (-1)%Z with
            | Some r, Some indices' => search_posting fts rest (st.1 ++ [r], indices')
            | _, _ => None
            end
      end
  end.

(** The outer loop of [_Search] over [fts.keys]. *)
Fixpoint search_keys (fts : FTS) (query : string) (limit : Z)
    (ks : list string) (st : acc) : option acc :=
  match ks with
  | [] => Some st
  | k :: ks' =>
      if (len st.1 >=? limit)%Z then Some st
      else if negb (_Contains k query) then search_keys fts query limit ks' st
      else
        match search_posting fts (default [] (cache fts !! k)) st with
        | None => None
        | Some st' => search_keys fts query limit ks' st'
        end
  end.

(** The strict loop: the record at every index of the posting. *)
Fixpoint strict_posting (fts : FTS) (indices : list Z) (result : list mapref)
  : option (list mapref) :=
  match indices with
  | [] => Some result
  | i :: rest =>
      match Go.index (json fts) i with
      | None => None
      | Some r => strict_posting fts rest (result ++ [r])
      end
  end.

Definition _Search (fts : FTS) (query : string) (limit : Z) (strict : bool)
  : option acc :=
  if (slen query =? 0)%Z then Some ([], [])
  else
    let result : list mapref := [] in
    let indices : list Z := replicate (length (json fts)) 0%Z in
    if strict then
      match cache fts !! query with
      | None => Some (result, indices)
      | Some indices =>
          match strict_posting fts indices result with
          | None => None
          | Some result => Some (result, indices)
          end
      end
    else search_keys fts query limit (keys fts) (result, indices).

(** [Search] takes the read lock and runs [_Search]. *)
Definition Search := _Search.

(** [keys[key]] on a [map[string]bool]: false when absent. *)
Definition flagged (keys : gmap string bool) (key : string) : bool :=
  default false (keys !! key).

(** [for key, value := range record]: the record is appended once for
    every flagged field whose value passes [test].  Only the number of
    such fields matters, so the order of the iteration does not. *)
Definition append_matches (test : string → bool) (keys : gmap string bool)
    (h : heap) (r : mapref) (result : list mapref) : list mapref :=
  foldl (λ res kv, if negb (flagged keys kv.1) then res
                   else if test kv.2 then res ++ [r] else res)
        result (map_to_list (deref h r)).

(** The loop over the records found for one word. *)
Definition filter_records (test : string → bool) (keys : gmap string bool)
    (h : heap) (queryResult : list mapref) (result : list mapref) : list mapref :=
  foldl (λ res r, append_matches test keys h r res) result queryResult.

(** The loop of [_SearchWithSpaces] over the words. *)
Fixpoint search_words (h : heap) (fts : FTS) (query : string) (limit : Z)
    (strict : bool) (keys : gmap string bool) (words : list string)
    (result : list mapref) : option (list mapref) :=
  match words with
  | [] => Some result
  | w :: ws =>
      match Search fts w limit strict with
      | None => None
      | Some (queryResult, _) =>
          search_words h fts query limit strict keys ws
            (filter_records (λ value, _Contains value query) keys h queryResult result)
      end
  end.

Definition _SearchWithSpaces (h : heap) (fts : FTS) (query : string) (limit : Z)
    (strict : bool) (keys : gmap string bool) : option acc :=
  let words := Split (TrimSpace query) in
  match words with
  | [] => Some ([], [])
  | [w] => Search fts w limit strict
  | _ =>
      match search_words h fts query limit strict keys words [] with
      | None => None
      | Some result => Some (result, [])
      end
  end.

(** [_SearchInJsonWithKey]: [limit] is a parameter of the function. *)
Definition _SearchInJsonWithKey (h : heap) (fts : FTS) (query key : string)
    (limit : Z) : list mapref :=
  foldl (λ res r,
           if _ContainsIgnoreCase (default EmptyString (deref h r !! key)) query
           then res ++ [r] else res)
        [] (json fts).

(** [_SearchInJson]: [limit] is a parameter of the function. *)
Definition _SearchInJson (h : heap) (fts : FTS) (query : string) (limit : Z)
    (keys : gmap string bool) : list mapref :=
  filter_records (λ value, _ContainsIgnoreCase value query) keys h (json fts) [].

End Search.

(** Every index kept in the cache is a position of [json]. *)
Definition in_range (fts : FTS) (i : Z) : Prop := (0 ≤ i < len (json fts))%Z.

Definition wf (fts : FTS) : Prop :=
  map_Forall (λ _ posting, Forall (in_range fts) posting) (cache fts).

(** What the store holds, record by record. *)
Definition contents (h : heap) (fts : FTS) : list (gmap string string) :=
  deref h <$> json fts.

(** A record is appended for a flagged field that passes the test. *)
Definition has_match (test : string → bool) (keys : gmap string bool)
    (h : heap) (r : mapref) : Prop :=
  ∃ key value, deref h r !! key = Some value
               ∧ flagged keys key = true ∧ test value = true.

#[global] Instance in_range_dec fts i : Decision (in_range fts i).
Proof. unfold in_range. apply _. Defined.

#[global] Instance wf_dec fts : Decision (wf fts).
Proof. unfold wf. apply _. Defined.

(** What the marks in [indices] record: a record of the result is marked
    at its position. *)
Definition marked (fts : FTS) (st : list mapref * list Z) : Prop :=
  NoDup st.1
  ∧ ∀ i r, json fts !! i = Some r → r ∈ st.1 → st.2 !! i = Some (-1)%Z.

(** The longest posting of the words listed in [keys]. *)
Definition longest_posting (fts : FTS) : Z :=
  foldr (λ k m, Z.max (len (default [] (cache fts !! k))) m) 0%Z (keys fts).

(** The number of marks [-1] in [indices]. *)
Definition count_marks (indices : list Z) : nat :=
  length (filter (λ z, z = (-1)%Z) indices).

(** The number of space bytes of [s]. *)
Fixpoint spaces (s : string) : nat :=
  match s with
  | EmptyString => 0
  | String c s' => (if Ascii.eqb c " "%char then 1 else 0) + spaces s'
  end.

(** The number of flagged fields of the record at [r] that pass [test]. *)
Definition matches (test : string → bool) (keys : gmap string bool)
    (h : heap) (r : mapref) : nat :=
  length (filter (λ kv, flagged keys kv.1 = true ∧ test kv.2 = true)
            (map_to_list (deref h r))).

(** Every record of [found], as many times as it has matching fields. *)
Definition repeat_matches (test : string → bool) (keys : gmap string bool)
    (h : heap) (found : list mapref) : list mapref :=
  found ≫= λ r, replicate (matches test keys h r) r.

(** The state [(result, indices)] of the loops: [indices] has a slot for
    each record, holds 0 or -1, marks as many slots as there are records
    in the result, and a marked slot is the position of a record of the
    result. *)
Definition tallied (fts : FTS) (st : list mapref * list Z) : Prop :=
  length st.2 = length (json fts)
  ∧ length st.1 = count_marks st.2
  ∧ (∀ i z, st.2 !! i = Some z → z = 0%Z ∨ z = (-1)%Z)
  ∧ (∀ i, st.2 !! i = Some (-1)%Z → ∃ r, json fts !! i = Some r ∧ r ∈ st.1).

(** The positions that a run of the outer loop of [_Search] over [ks] may
    return: those of the postings of the words that contain the query. *)
Definition hit (_Contains : string → string → bool) (fts : FTS) (query : string)
    (ks : list string) (i : Z) : Prop :=
  ∃ k, k ∈ ks ∧ _Contains k query = true ∧ i ∈ default [] (cache fts !! k).

End FTS.

(** ** Records with values of any type, and the heap they live in *)
Module Store.
Import Go.

(** A value of type [any] held by a record field. *)
#[warnings="-register-all"] Inductive value :=
  | VStr (s : string)
  | VInt (n : Z)
  | VFloat (bits : Z)
  | VBool (b : bool)
  | VList (l : list value)
  | VMap (m : list (string * value))
  | VNil.

(** [tables]: the objects of type [map[string]map[string]any] (a record
    key to a record); [records]: the objects of type [map[string]any]. *)
Record heap := mkHeap {
    tables : gmap loc (gmap string mapref);
    records : gmap loc (gmap string value)
  }.

(** Go gives no order to [for k, v := range m]: any enumeration of the
    entries of the map. *)
Class MapOrder := {
    range : ∀ {V}, gmap string V → list (string * V);
    range_perm : ∀ V (m : gmap string V), range m ≡ₚ map_to_list m
  }.

(** An [error] is its message. *)
Definition error := string.

(** What a JSON file of records decodes to: record keys to field maps
    ([None] for a JSON null, which decodes to the nil map). *)
Abbreviation json_data := (gmap string (option (gmap string value))).

(** Decoding builds new map objects: every record at a location of
    [records] not in use, then the table at a location of [tables] not in
    use. *)
Definition alloc_record (st : heap * gmap string mapref)
    (kr : string * option (gmap string value)) : heap * gmap string mapref :=
  match kr.2 with
  | None => (st.1, <[kr.1 := None]> st.2)
  | Some m =>
      let l := fresh (dom (records st.1)) in
      (mkHeap (tables st.1) (<[l := m]> (records st.1)), <[kr.1 := Some l]> st.2)
  end.

Definition alloc_json (h : heap) (content : json_data) : mapref * heap :=
  let st := foldl alloc_record (h, ∅) (map_to_list content) in
  let l := fresh (dom (tables st.1)) in
  (Some l, mkHeap (<[l := st.2]> (tables st.1)) (records st.1)).

(** A table reference is live when it is nil or has its object. *)
Definition live (h : heap) (r : mapref) : Prop :=
  match r with
  | Some l => is_Some (tables h !! l)
  | None => True
  end.

#[global] Instance live_dec h r : Decision (live h r).
Proof. destruct r; simpl; apply _. Defined.

(** The number of keys of the table [m] that refer to the record at [l]. *)
Definition refs_to (m : gmap string mapref) (l : loc) : nat :=
  length (filter (λ r, r = Some l) (map_to_list m).*2).

(** [fmt.Errorf("key %s already exists in cache", k)] *)
Definition key_exists (k : string) : error :=
  ("key " +:+ k +:+ " already exists in cache")%string.

(** The loop that opens [ftInitWithMap] and [initFTWithMap], the same in
    both files, [src] being [c.data]:
    [for k := range c.data { if _, ok := data[k]; ok { return error };
    data[k] = c.data[k] }]. *)
Fixpoint merge_keys (src data : mapref) (ks : list string)
    (tbl : gmap loc (gmap string mapref))
  : option (gmap loc (gmap string mapref) * option error) :=
  match ks with
  | [] => Some (tbl, None)
  | k :: rest =>
      match deref tbl data !! k with
      | Some _ => Some (tbl, Some (key_exists k))
      | None =>
          match store tbl data k (default None (deref tbl src !! k)) with
          | None => None
          | Some tbl' => merge_keys src data rest tbl'
          end
      end
  end.

End Store.

(** ** The init file of package hermes *)
Module Hermes.
Import Go Store.

(** [FullText], with the fields of the literal in [ftInit]. *)
Record FullText := mkFullText {
    storage : gmap string value;
    indices : gmap Z string;
    index : Z;
    maxSize : Z;
    maxBytes : Z;
    minWordLength : Z
  }.

(** [Cache]: [data] and [ft] ([None] is the nil pointer); the lock is not
    modelled. *)
Record Cache := mkCache {
    data : mapref;
    ft : option FullText
  }.

(** The functions [insert] and [ftInitWithJson] call and that are defined
    outside the files at hand.  [ts.insert] receives the temp storage, the
    full-text struct and two strings: it can change the first two and
    return an error; it has no access to the records. *)
Class Helpers := {
    TempStorage : Type;
    WFTGetValue : value → string;
    NewTempStorage : FullText → TempStorage;
    ts_insert : TempStorage → FullText → string → string
                → TempStorage * FullText * option error;
    cleanSingleArrays : TempStorage → TempStorage;
    updateFullText : TempStorage → FullText → FullText;
    ReadJson : string → error + json_data
  }.

Section Init.
Context `{!Helpers, !MapOrder}.

(** The state threaded through the loops of [insert], and how a loop
    ends: with an error, or not. *)
Abbreviation ins := (gmap loc (gmap string value) * TempStorage * FullText)%type.

(** [for k, v := range cacheValue]: the inner loop of [insert].  The
    entry written is [( *data)[cacheKey][k]]. *)
Fixpoint insert_fields (tbl : gmap loc (gmap string mapref)) (data : mapref)
    (cacheKey : string) (fields : list (string * value)) (st : ins)
  : option (ins * option error) :=
  match fields with
  | [] => Some (st, None)
  | (k, v) :: rest =>
      let ftv := WFTGetValue v in
      if (slen ftv =? 0)%Z then insert_fields tbl data cacheKey rest st
      else
        match store st.1.1 (default None (deref tbl data !! cacheKey)) k (VStr ftv) with
        | None => None
        | Some recs =>
            match ts_insert st.1.2 st.2 cacheKey ftv with
            | (ts, ft, Some err) => Some ((recs, ts, ft), Some err)
            | (ts, ft, None) => insert_fields tbl data cacheKey rest (recs, ts, ft)
            end
        end
  end.

(** [for cacheKey, cacheValue := range *data]: the outer loop. *)
Fixpoint insert_records (tbl : gmap loc (gmap string mapref)) (data : mapref)
    (entries : list (string * mapref)) (st : ins) : option (ins * option error) :=
  match entries with
  | [] => Some (st, None)
  | (cacheKey, cacheValue) :: rest =>
      match insert_fields tbl data cacheKey (range (deref st.1.1 cacheValue)) st with
      | None => None
      | Some (st', Some err) => Some (st', Some err)
      | Some (st', None) => insert_records tbl data rest st'
      end
  end.

(** [FullText.insert].  The size printed at the end is not modelled. *)
Definition insert (ft : FullText) (h : heap) (data : mapref)
  : option (heap * FullText * option error) :=
  let ts := NewTempStorage ft in
  match insert_records (tables h) data (range (deref (tables h) data))
          (records h, ts, ft) with
  | None => None
  | Some ((recs, ts, ft), Some err) => Some (mkHeap (tables h) recs, ft, Some err)
  | Some ((recs, ts, ft), None) =>
      let ts := cleanSingleArrays ts in
      let ft := updateFullText ts ft in
      Some (mkHeap (tables h) recs, ft, None)
  end.

(** What every operation on the cache returns: the heap and the cache
    after the call, and the error ([None] is Go's nil error). *)
Abbreviation outcome := (option (heap * Cache * option error)).

Definition ftInit (h : heap) (c : Cache) (maxSize maxBytes minWordLength : Z)
  : outcome :=
  let ft := mkFullText ∅ ∅ 0 maxSize maxBytes minWordLength in
  match insert ft h (data c) with
  | None => None
  | Some (h', _, Some err) => Some (h', c, Some err)
  | Some (h', ft, None) => Some (h', mkCache (data c) (Some ft), None)
  end.

Definition FTInit (h : heap) (c : Cache) (maxSize maxBytes minWordLength : Z)
  : outcome :=
  match ft c with
  | Some _ => Some (h, c, Some "full-text already initialized"%string)
  | None => ftInit h c maxSize maxBytes minWordLength
  end.

Definition ftInitWithMap (h : heap) (c : Cache) (data : mapref)
    (maxSize maxBytes minWordLength : Z) : outcome :=
  let ft := mkFullText ∅ ∅ 0 maxSize maxBytes minWordLength in
  match merge_keys (Hermes.data c) data (range (deref (tables h) (Hermes.data c))).*1 (tables h) with
  | None => None
  | Some (tbl, Some err) => Some (mkHeap tbl (records h), c, Some err)
  | Some (tbl, None) =>
      match insert ft (mkHeap tbl (records h)) data with
      | None => None
      | Some (h', _, Some err) => Some (h', c, Some err)
      | Some (h', ft, None) => Some (h', mkCache data (Some ft), None)
      end
  end.

Definition FTInitWithMap (h : heap) (c : Cache) (data : mapref)
    (maxSize maxBytes minWordLength : Z) : outcome :=
  match ft c with
  | Some _ => Some (h, c, Some "full-text cache already initialized"%string)
  | None => ftInitWithMap h c data maxSize maxBytes minWordLength
  end.

Definition ftInitWithJson (h : heap) (c : Cache) (file : string)
    (maxSize maxBytes minWordLength : Z) : outcome :=
  match ReadJson file with
  | inl err => Some (h, c, Some err)
  | inr content =>
      let (data, h') := alloc_json h content in
      ftInitWithMap h' c data maxSize maxBytes minWordLength
  end.

Definition FTInitWithJson (h : heap) (c : Cache) (file : string)
    (maxSize maxBytes minWordLength : Z) : outcome :=
  match ft c with
  | Some _ => Some (h, c, Some "full-text cache already initialized"%string)
  | None => ftInitWithJson h c file maxSize maxBytes minWordLength
  end.

(** The three FT-init operations of the cache. *)
Inductive init_call :=
  | CallFTInit
  | CallFTInitWithMap (data : mapref)
  | CallFTInitWithJson (file : string).

Definition run (op : init_call) (h : heap) (c : Cache)
    (maxSize maxBytes minWordLength : Z) : outcome :=
  match op with
  | CallFTInit => FTInit h c maxSize maxBytes minWordLength
  | CallFTInitWithMap data => FTInitWithMap h c data maxSize maxBytes minWordLength
  | CallFTInitWithJson file => FTInitWithJson h c file maxSize maxBytes minWordLength
  end.

(** The error of each operation on a cache that is initialised. *)
Definition already (op : init_call) : error :=
  match op with
  | CallFTInit => "full-text already initialized"%string
  | _ => "full-text cache already initialized"%string
  end.

End Init.

(** The full-text index is initialised when [c.ft] is not nil. *)
Definition initialized (c : Cache) : bool := bool_decide (is_Some (ft c)).

(** [InitCache] on a heap: a new empty table at a location not in use. *)
Definition InitCache (h : heap) : heap * Cache :=
  let l := fresh (dom (tables h)) in
  (mkHeap (<[l := ∅]> (tables h)) (records h), mkCache (Some l) None).

(** What the field [v] becomes when [insert] visits it. *)
Definition extracted `{!Helpers} (v : value) : value :=
  if (slen (WFTGetValue v) =? 0)%Z then v else VStr (WFTGetValue v).

(** One step of the inner loop of [insert] on the fields of a record. *)
Definition replace_field `{!Helpers} (m : gmap string value) (kv : string * value)
  : gmap string value :=
  if (slen (WFTGetValue kv.2) =? 0)%Z then m else <[kv.1 := VStr (WFTGetValue kv.2)]> m.

(** One visit of [insert] to the record object at [r]. *)
Definition touch `{!Helpers} (recs : gmap loc (gmap string value)) (r : mapref)
  : gmap loc (gmap string value) :=
  match r with
  | Some l => alter (fmap extracted) l recs
  | None => recs
  end.

(** [err] is an error that [ts.insert] returns for the record key [key] and
    a non-empty extracted string. *)
Definition raised `{!Helpers} (key : string) (err : error) : Prop :=
  ∃ ts ft ftv, ftv ≠ EmptyString ∧ (ts_insert ts ft key ftv).2 = Some err.

(** The full-text struct [ftInit] and [ftInitWithMap] store when the loops
    of [insert] never call [ts.insert]. *)
Definition empty_index `{!Helpers} (maxSize maxBytes minWordLength : Z) : FullText :=
  let ft := mkFullText ∅ ∅ 0 maxSize maxBytes minWordLength in
  updateFullText (cleanSingleArrays (NewTempStorage ft)) ft.

End Hermes.

(** ** ft_init.go of package cache *)
Module Cache.
Import Go Store.

(** [FullText], with the fields of the literal in [initFT]. *)
Record FullText := mkFullText {
    wordCache : gmap string (list string);
    maxWords : Z;
    maxSizeBytes : Z;
    isInitialized : bool
  }.

Record Cache := mkCache {
    data : mapref;
    ft : option FullText
  }.

(** The methods called on [c.ft] and the file reader, defined outside the
    file at hand.  [loadCacheData] receives the struct and the table. *)
Class Helpers := {
    loadCacheData : FullText → heap → mapref → gmap string bool
                    → heap * FullText * option error;
    clean : FullText → FullText;
    readJson : string → error + json_data
  }.

Definition already : error := "full text cache already initialized"%string.

(** [c.ft != nil && c.ft.isInitialized] *)
Definition initialized (c : Cache) : bool :=
  match ft c with
  | Some ft => isInitialized ft
  | None => false
  end.

Definition set_initialized (ft : FullText) : FullText :=
  mkFullText (wordCache ft) (maxWords ft) (maxSizeBytes ft) true.

Section Init.
Context `{!Helpers, !MapOrder}.

Abbreviation outcome := (option (heap * Cache * option error)).

Definition initFT (h : heap) (c : Cache) (maxWords maxSizeBytes : Z)
    (schema : gmap string bool) : outcome :=
  let ft := mkFullText ∅ maxWords maxSizeBytes false in
  match loadCacheData ft h (data c) schema with
  | (h', ft, Some err) => Some (h', mkCache (data c) (Some (clean ft)), Some err)
  | (h', ft, None) => Some (h', mkCache (data c) (Some (set_initialized ft)), None)
  end.

Definition InitFT (h : heap) (c : Cache) (maxWords maxSizeBytes : Z)
    (schema : gmap string bool) : outcome :=
  if initialized c then Some (h, c, Some already)
  else initFT h c maxWords maxSizeBytes schema.

Definition initFTWithMap (h : heap) (c : Cache) (data : mapref)
    (maxWords maxSizeBytes : Z) (schema : gmap string bool) : outcome :=
  let ft := mkFullText ∅ maxWords maxSizeBytes false in
  let c := mkCache (Cache.data c) (Some ft) in
  match merge_keys (Cache.data c) data (range (deref (tables h) (Cache.data c))).*1 (tables h) with
  | None => None
  | Some (tbl, Some err) => Some (mkHeap tbl (records h), c, Some err)
  | Some (tbl, None) =>
      match loadCacheData ft (mkHeap tbl (records h)) data schema with
      | (h', ft, Some err) =>
          Some (h', mkCache (Cache.data c) (Some (clean ft)), Some err)
      | (h', ft, None) => Some (h', mkCache data (Some (set_initialized ft)), None)
      end
  end.

Definition InitFTWithMap (h : heap) (c : Cache) (data : mapref)
    (maxWords maxSizeBytes : Z) (schema : gmap string bool) : outcome :=
  if initialized c then Some (h, c, Some already)
  else initFTWithMap h c data maxWords maxSizeBytes schema.

Definition initFTWithJson (h : heap) (c : Cache) (file : string)
    (maxWords maxSizeBytes : Z) (schema : gmap string bool) : outcome :=
  match readJson file with
  | inl err => Some (h, c, Some err)
  | inr content =>
      let (data, h') := alloc_json h content in
      initFTWithMap h' c data maxWords maxSizeBytes schema
  end.

Definition InitFTWithJson (h : heap) (c : Cache) (file : string)
    (maxWords maxSizeBytes : Z) (schema : gmap string bool) : outcome :=
  if initialized c then Some (h, c, Some already)
  else initFTWithJson h c file maxWords maxSizeBytes schema.

(** The three FT-init operations of the cache. *)
Inductive init_call :=
  | CallInitFT
  | CallInitFTWithMap (data : mapref)
  | CallInitFTWithJson (file : string).

Definition run (op : init_call) (h : heap) (c : Cache)
    (maxWords maxSizeBytes : Z) (schema : gmap string bool) : outcome :=
  match op with
  | CallInitFT => InitFT h c maxWords maxSizeBytes schema
  | CallInitFTWithMap data => InitFTWithMap h c data maxWords maxSizeBytes schema
  | CallInitFTWithJson file => InitFTWithJson h c file maxWords maxSizeBytes schema
  end.

End Init.

End Cache.

(** ** The HTTP handlers of the search file of package handlers *)
Module Handlers.
Import Go Store.

(** The request as the handlers read it: the parameters of the URL.
    [ctx.Query(name)] is the empty string for a parameter that is absent. *)
Record Ctx := mkCtx { params : gmap string string }.

Definition Query (ctx : Ctx) (name : string) : string :=
  default EmptyString (params ctx !! name).

(** [Hermes.SearchParams], with the fields the handlers set; a field that a
    literal leaves out has its zero value. *)
Record SearchParams := mkSearchParams {
  Query_ : string;
  Limit : Z;
  Strict : bool;
  Schema : gmap string bool;
  Key : string
}.

(** What a handler passes to [ctx.Send]: [Utils.Error] of a message or of an
    error, or the marshalled result. *)
Inductive sent :=
  | SentError (msg : error)
  | SentData (data : string).

(** The cache, its four search methods, the parsers of package Utils and
    [json.Marshal] are defined outside the file.  A parser that fails
    returns its error; otherwise it gives the value it stores through the
    pointer. *)
Class Env := {
  Cache : Type;
  Result : Type;
  GetLimitParam : Ctx → error + Z;
  GetStrictParam : Ctx → error + bool;
  GetSchemaParam : Ctx → error + gmap string bool;
  cache_Search : Cache → SearchParams → error + Result;
  cache_SearchOneWord : Cache → SearchParams → error + Result;
  cache_SearchValues : Cache → SearchParams → error + Result;
  cache_SearchWithKey : Cache → SearchParams → error + Result;
  Marshal : Result → error + string
}.

Section Handlers.
Context `{!Env}.

(** The tail common to the four handlers: the search, then the encoding. *)
Definition respond (found : error + Result) : sent :=
  match found with
  | inl err => SentError err
  | inr res =>
      match Marshal res with
      | inl err => SentError err
      | inr data => SentData data
      end
  end.

Definition Search (c : Cache) (ctx : Ctx) : sent :=
  let query := Query ctx "query" in
  if (slen query =? 0)%Z then SentError "query not provided"%string
  else
    match GetLimitParam ctx with
    | inl err => SentError err
    | inr limit =>
        match GetStrictParam ctx with
        | inl err => SentError err
        | inr strict =>
            respond (cache_Search c (mkSearchParams query limit strict ∅ EmptyString))
        end
    end.

Definition SearchOneWord (c : Cache) (ctx : Ctx) : sent :=
  let query := Query ctx "query" in
  if (slen query =? 0)%Z then SentError "invalid query"%string
  else
    match GetLimitParam ctx with
    | inl err => SentError err
    | inr limit =>
        match GetStrictParam ctx with
        | inl err => SentError err
        | inr strict =>
            respond (cache_SearchOneWord c
                       (mkSearchParams query limit strict ∅ EmptyString))
        end
    end.

Definition SearchValues (c : Cache) (ctx : Ctx) : sent :=
  let query := Query ctx "query" in
  if (slen query =? 0)%Z then SentError "invalid query"%string
  else
    match GetLimitParam ctx with
    | inl err => SentError err
    | inr limit =>
        match GetSchemaParam ctx with
        | inl err => SentError err
        | inr schema =>
            respond (cache_SearchValues c
                       (mkSearchParams query limit false schema EmptyString))
        end
    end.

Definition SearchWithKey (c : Cache) (ctx : Ctx) : sent :=
  let query := Query ctx "query" in
  if (slen query =? 0)%Z then SentError "invalid query"%string
  else
    let key := Query ctx "key" in
    if (slen key =? 0)%Z then SentError "invalid key"%string
    else
      match GetLimitParam ctx with
      | inl err => SentError err
      | inr limit =>
          respond (cache_SearchWithKey c (mkSearchParams query limit false ∅ key))
      end.

End Handlers.

End Handlers.

(** ** The helpers the files call and do not define, after the specification *)
Module Model.
Import Go Store.

(** Modelled from the spec: [_Contains] is missing from the search file;
    "contain [query] as a substring": [sub] occurs in [s]. *)
Fixpoint has_prefix (p s : string) : bool :=
  match p, s with
  | EmptyString, _ => true
  | String a p', String b s' => Ascii.eqb a b && has_prefix p' s'
  | String _ _, EmptyString => false
  end.

Fixpoint contains (s sub : string) : bool :=
  has_prefix sub s ||
  match s with
  | EmptyString => false
  | String _ s' => contains s' sub
  end.

(** Modelled from the spec: the case folding of the tokeniser, "lowercase
    using ASCII semantics (non-ASCII bytes pass through unchanged)". *)
Definition lower (c : ascii) : ascii :=
  let n := N_of_ascii c in
  if ((65 <=? n) && (n <=? 90))%N then ascii_of_N (n + 32) else c.

Fixpoint to_lower (s : string) : string :=
  match s with
  | EmptyString => EmptyString
  | String c s' => String (lower c) (to_lower s')
  end.

(** Modelled from the spec: [_ContainsIgnoreCase] is missing from the search
    file; "contain [query] as a case-insensitive substring". *)
Definition contains_ignore_case (s sub : string) : bool :=
  contains (to_lower s) (to_lower sub).

(** Modelled from the spec: the punctuation the tokeniser strips, "at minimum
    [. , ; : ! ? double and single quote ( ) [ ] { }]", by byte value. *)
Definition is_punct (c : ascii) : bool :=
  bool_decide (N_of_ascii c ∈ [46; 44; 59; 58; 33; 63; 34; 39; 40; 41; 91; 93; 123; 125]%N).

Fixpoint strip_front (s : string) : string :=
  match s with
  | String c s' => if is_punct c then strip_front s' else s
  | EmptyString => s
  end.

Definition strip (s : string) : string :=
  String.rev (strip_front (String.rev (strip_front s))).

(** The pieces of [s] between runs of white space; [cur] is the piece being
    read. *)
Fixpoint pieces (s cur : string) : list string :=
  match s with
  | EmptyString => if decide (cur = EmptyString) then [] else [cur]
  | String c s' =>
      if is_space1 c
      then (if decide (cur = EmptyString) then pieces s' EmptyString
            else cur :: pieces s' EmptyString)
      else pieces s' (cur +:+ String c EmptyString)
  end.

(** Modelled from the spec: the Tokeniser and Normaliser (section 4.1), missing
    from the files: trim, split on runs of white space, strip the
    punctuation, fold the case, drop the tokens shorter than
    [minWordLength]. *)
Definition tokenise (minWordLength : Z) (s : string) : list string :=
  filter (λ t, (minWordLength ≤ slen t)%Z ∧ t ≠ EmptyString)
         ((λ p, to_lower (strip p)) <$> pieces s EmptyString).

(** Modelled from the spec: the Value Extractor (section 4.2), in the place of
    the missing [WFTGetValue]: a string gives itself, a list and a nested
    map the extractions of their elements in order, any other value
    nothing; empty strings are skipped. *)
Fixpoint extract (v : value) : list string :=
  match v with
  | VStr s => if decide (s = EmptyString) then [] else [s]
  | VList l => concat (map extract l)
  | VMap m => concat (map (λ kv, match kv with (_, x) => extract x end) m)
  | _ => []
  end.

(** The one string [insert] works with: the extracted strings, separated by
    a space. *)
Definition join (l : list string) : string :=
  match l with
  | [] => EmptyString
  | s :: rest => foldl (λ acc t, acc +:+ " " +:+ t)%string s rest
  end.

Definition extract_string (v : value) : string := join (extract v).

(** Modelled from the spec: the caps of the index (section 3): [-1] disables
    a cap; a cap is exceeded when the count is above it.  The byte cost is
    the length of the tokens plus the length of the posting entries. *)
Definition byte_cost (m : gmap string (list string)) : Z :=
  map_fold (λ t ks n, slen t + foldr (λ k a, slen k + a) 0 ks + n)%Z 0%Z m.

Definition cap_exceeded (maxWords maxBytes : Z) (m : gmap string (list string))
  : option error :=
  if decide (maxWords ≠ -1 ∧ maxWords < Z.of_nat (size m))%Z
  then Some "cap exceeded: words"%string
  else if decide (maxBytes ≠ -1 ∧ maxBytes < byte_cost m)%Z
  then Some "cap exceeded: bytes"%string
  else None.

(** Modelled from the spec: the Temp Builder (section 4.4), missing from the
    files: per token, the ordered list of the contributing record keys,
    without duplicates. *)
Definition add_key (key : string) (m : gmap string (list string)) (t : string)
  : gmap string (list string) :=
  let ks := default [] (m !! t) in
  if decide (key ∈ ks) then m else <[t := ks ++ [key]]> m.

Definition builder_insert (maxWords maxBytes minWordLength : Z)
    (m : gmap string (list string)) (key ftv : string)
  : gmap string (list string) * option error :=
  let m' := foldl (add_key key) m (tokenise minWordLength ftv) in
  match cap_exceeded maxWords maxBytes m' with
  | Some err => (m, Some err)
  | None => (m', None)
  end.

(** At flush time a posting of one key is written as the bare key. *)
Definition flush (ks : list string) : value :=
  match ks with
  | [k] => VStr k
  | _ => VList (VStr <$> ks)
  end.

(** Modelled from the spec: the snapshot loader (section 6), missing from the
    files: a file is a mapping from record keys to field maps; a path that
    is not on [disk] gives an error. *)
Definition read_json (disk : gmap string json_data) (file : string)
  : error + json_data :=
  match disk !! file with
  | None => inl "open: no such file"%string
  | Some content => inr content
  end.

(** The helpers of the init file of package hermes. *)
Definition hermes_helpers (disk : gmap string json_data)
  : Hermes.Helpers :=
  {| Hermes.TempStorage := gmap string (list string);
     Hermes.WFTGetValue := extract_string;
     Hermes.NewTempStorage := λ _, ∅;
     Hermes.ts_insert := λ ts ft key ftv,
       let r := builder_insert (Hermes.maxSize ft) (Hermes.maxBytes ft)
                  (Hermes.minWordLength ft) ts key ftv in
       (r.1, ft, r.2);
     Hermes.cleanSingleArrays := λ ts, ts;
     Hermes.updateFullText := λ ts ft,
       Hermes.mkFullText (flush <$> ts) (Hermes.indices ft) (Hermes.index ft)
         (Hermes.maxSize ft) (Hermes.maxBytes ft) (Hermes.minWordLength ft);
     Hermes.ReadJson := read_json disk |}.

(** Modelled from the spec: [loadCacheData] and [clean] of ft_init.go's
    [FullText], missing from the files: the fields named in the schema are
    extracted, tokenised and added to the word cache, within the caps; the
    records are read only.  [clean] clears the partial state. *)
Definition load_field (key : string) (schema : gmap string bool)
    (st : Cache.FullText * option error) (kv : string * value)
  : Cache.FullText * option error :=
  match st.2 with
  | Some _ => st
  | None =>
      if default false (schema !! kv.1)
      then
        let r := builder_insert (Cache.maxWords st.1) (Cache.maxSizeBytes st.1) 0
                   (Cache.wordCache st.1) key (extract_string kv.2) in
        (Cache.mkFullText r.1 (Cache.maxWords st.1) (Cache.maxSizeBytes st.1)
           (Cache.isInitialized st.1), r.2)
      else st
  end.

Definition load_cache_data `{!MapOrder} (ft : Cache.FullText) (h : heap)
    (data : mapref) (schema : gmap string bool)
  : heap * Cache.FullText * option error :=
  let r := foldl (λ st kr, foldl (load_field kr.1 schema) st
                             (range (deref (records h) kr.2)))
                 (ft, None) (range (deref (tables h) data)) in
  (h, r.1, r.2).

Definition clear (ft : Cache.FullText) : Cache.FullText :=
  Cache.mkFullText ∅ (Cache.maxWords ft) (Cache.maxSizeBytes ft) false.

Definition cache_helpers `{!MapOrder}
    (disk : gmap string json_data) : Cache.Helpers :=
  {| Cache.loadCacheData := load_cache_data;
     Cache.clean := clear;
     Cache.readJson := read_json disk |}.

(** One possible iteration order: the order of the map's list of entries. *)
Definition listed : MapOrder :=
  {| range := λ V m, map_to_list m;
     range_perm := λ V m, reflexivity (map_to_list m) |}.

(** The helpers of the init file with the caps of the Temp Builder disabled
    ([-1]), so that [ts.insert] returns no error. *)
Definition uncapped_helpers (disk : gmap string json_data) : Hermes.Helpers :=
  {| Hermes.TempStorage := gmap string (list string);
     Hermes.WFTGetValue := extract_string;
     Hermes.NewTempStorage := λ _, ∅;
     Hermes.ts_insert := λ ts ft key ftv,
       let r := builder_insert (-1) (-1) (Hermes.minWordLength ft) ts key ftv in
       (r.1, ft, r.2);
     Hermes.cleanSingleArrays := λ ts, ts;
     Hermes.updateFullText := λ ts ft,
       Hermes.mkFullText (flush <$> ts) (Hermes.indices ft) (Hermes.index ft)
         (Hermes.maxSize ft) (Hermes.maxBytes ft) (Hermes.minWordLength ft);
     Hermes.ReadJson := read_json disk |}.

End Model.

(** ** Concrete states *)
Module Examples.
Import Go Store.

(** Three records and the index of their words: record 0 is "red car",
    record 1 "red bike", record 2 "car red". *)
Definition shop_heap : FTS.heap :=
  {[ 1%positive := {[ "name"%string := "red car"%string ]};
     2%positive := {[ "name"%string := "red bike"%string ]};
     3%positive := {[ "name"%string := "car red"%string ]} ]}.

Definition shop : FTS.FTS :=
  FTS.mkFTS [Some 1%positive; Some 2%positive; Some 3%positive]
    {[ "red"%string := [0; 1; 2]%Z; "car"%string := [0; 2]%Z; "bike"%string := [1]%Z ]}
    ["red"; "car"; "bike"]%string.

Definition by_name : gmap string bool := {[ "name"%string := true ]}.

(** A cache that holds the records "a" and "b" in the table at location 1,
    a caller's map with the key "b" at location 2 and one with the key "c"
    at location 3. *)
Definition depot : heap :=
  mkHeap
    {[ 1%positive := {[ "a"%string := Some 11%positive; "b"%string := Some 12%positive ]};
       2%positive := {[ "b"%string := Some 13%positive ]};
       3%positive := {[ "c"%string := Some 13%positive ]} ]}
    {[ 11%positive := {[ "name"%string := VList [VStr "red"; VStr "car"] ]};
       12%positive := {[ "name"%string := VStr "red bike"; "age"%string := VInt 3 ]};
       13%positive := {[ "name"%string := VStr "blue car" ]} ]}.

(** A snapshot file with the key "b". *)
Definition disk : gmap string json_data :=
  {[ "snap.json"%string := {[ "b"%string := Some {[ "name"%string := VStr "blue car" ]} ]} ]}.

(** The helpers and the iteration order the examples run with. *)
Definition order : MapOrder := Model.listed.
Definition helpers : Hermes.Helpers := Model.hermes_helpers disk.
Definition cache_helpers : Cache.Helpers := @Model.cache_helpers order disk.

Definition fresh_cache : Hermes.Cache := Hermes.mkCache (Some 1%positive) None.

Definition ready_cache : Hermes.Cache :=
  Hermes.mkCache (Some 1%positive) (Some (Hermes.mkFullText ∅ ∅ 0 (-1) (-1) 0)).

Definition fresh_cache1 : Cache.Cache := Cache.mkCache (Some 1%positive) None.

Definition ready_cache1 : Cache.Cache :=
  Cache.mkCache (Some 1%positive) (Some (Cache.mkFullText ∅ (-1) (-1) true)).

(** An index with a posting that holds a position [json] does not have. *)
Definition broken : FTS.FTS :=
  FTS.mkFTS [Some 1%positive] {[ "red"%string := [0; 5]%Z ]} ["red"%string].

(** A cache whose one record has no field with an extraction. *)
Definition plain_depot : heap :=
  mkHeap {[ 1%positive := {[ "a"%string := Some 11%positive ]} ]}
         {[ 11%positive := {[ "age"%string := VInt 3 ]} ]}.

Definition uncapped : Hermes.Helpers := Model.uncapped_helpers disk.

(** The shop with the words of its index listed in another order. *)
Definition shelf : FTS.FTS :=
  FTS.mkFTS (FTS.json shop) (FTS.cache shop) ["bike"; "car"; "red"]%string.

End Examples.

(** * Properties of the search file *)
Section SearchTheory.
Import Go FTS.
Context (_Contains _ContainsIgnoreCase : string → string → bool).

Lemma index_Some {A} (s : list A) (i : Z) (x : A) :
  Go.index s i = Some x ↔ (0 ≤ i)%Z ∧ s !! Z.to_nat i = Some x.
Proof.
  unfold Go.index. destruct (Z.ltb_spec i 0); split.
  - discriminate.
  - intros [? _]. lia.
  - auto.
  - intros [_ ?]. assumption.
Qed.

Lemma index_elem_of {A} (s : list A) (i : Z) (x : A) :
  Go.index s i = Some x → x ∈ s.
Proof. rewrite index_Some. intros [_ H]. eapply list_elem_of_lookup_2, H. Qed.

Lemma index_is_Some {A} (s : list A) (i : Z) :
  (0 ≤ i < len s)%Z → is_Some (Go.index s i).
Proof.
  unfold len. intros Hi. unfold Go.index.
  destruct (Z.ltb_spec i 0); [lia|].
  apply lookup_lt_is_Some. lia.
Qed.

Lemma set_index_Some {A} (s : list A) (i : Z) (x : A) :
  (0 ≤ i < len s)%Z →
  ∃ s', Go.set_index s i x = Some s' ∧ length s' = length s.
Proof.
  unfold len, Go.set_index. intros Hi.
  destruct (Z.ltb_spec i 0); [lia|].
  destruct (decide _) as [_|Hn]; [|lia].
  eexists. split; [reflexivity|]. apply length_insert.
Qed.

Lemma set_index_length {A} (s s' : list A) (i : Z) (x : A) :
  Go.set_index s i x = Some s' → length s' = length s.
Proof.
  unfold Go.set_index. destruct (i <? 0)%Z; [discriminate|].
  destruct (decide _); [|discriminate].
  intros [= <-]. apply length_insert.
Qed.

Lemma slen_zero (s : string) : (slen s =? 0)%Z = true ↔ s = EmptyString.
Proof.
  unfold slen. rewrite Z.eqb_eq. destruct s; simpl; split; try done; lia.
Qed.

(** ** The loop over one posting *)

Lemma search_posting_total fts posting st :
  Forall (in_range fts) posting →
  length st.2 = length (json fts) →
  is_Some (search_posting fts posting st).
Proof.
  intros Hp. revert st. induction Hp as [|i posting Hi _ IH]; intros [res ind] Hlen.
  - by eexists.
  - simpl in *. unfold in_range, len in Hi.
    destruct (index_is_Some ind i) as [seen ->]; [unfold len; lia|].
    destruct (seen =? -1)%Z; [by apply IH|].
    destruct (index_is_Some (json fts) i) as [r ->]; [unfold len; lia|].
    destruct (set_index_Some ind i (-1)%Z) as (ind' & -> & Hlen'); [unfold len; lia|].
    apply IH. simpl. congruence.
Qed.

Lemma search_posting_inv fts posting st st' :
  search_posting fts posting st = Some st' →
  (length st'.1 ≤ length st.1 + length posting)%nat
  ∧ length st'.2 = length st.2
  ∧ (∀ r, r ∈ st'.1 → r ∈ st.1 ∨ r ∈ json fts).
Proof.
  revert st. induction posting as [|i posting IH]; intros [res ind]; simpl.
  - intros [= <-]. simpl. split; [lia|]. split; [done|]. auto.
  - destruct (Go.index ind i) as [seen|]; [|discriminate].
    destruct (seen =? -1)%Z.
    { intros H. destruct (IH _ H) as (? & ? & ?). simpl in *. split; [lia|done]. }
    destruct (Go.index (json fts) i) as [r|] eqn:Hr; [|discriminate].
    destruct (Go.set_index ind i (-1)%Z) as [ind'|] eqn:Hset; [|discriminate].
    intros H. destruct (IH _ H) as (Hl & Hi & Hsub). simpl in *.
    rewrite length_app in Hl. simpl in Hl.
    split; [lia|]. split.
    + rewrite Hi. eapply set_index_length, Hset.
    + intros r' Hr'. destruct (Hsub _ Hr') as [Hin|Hin]; [|by right].
      apply elem_of_app in Hin as [Hin|Hin]; [by left|].
      apply list_elem_of_singleton in Hin as ->. right. eapply index_elem_of, Hr.
Qed.

(** ** The loop over the words of the index *)

Lemma wf_posting fts k :
  wf fts → Forall (in_range fts) (default [] (cache fts !! k)).
Proof.
  intros Hwf. destruct (cache fts !! k) as [p|] eqn:Hk; simpl; [|constructor].
  eapply (Hwf k), Hk.
Qed.

Lemma search_keys_total fts query limit ks st :
  wf fts →
  length st.2 = length (json fts) →
  is_Some (search_keys _Contains fts query limit ks st).
Proof.
  intros Hwf. revert st. induction ks as [|k ks IH]; intros st Hlen; simpl.
  - by eexists.
  - destruct (len st.1 >=? limit)%Z; [by eexists|].
    destruct (negb _); [by apply IH|].
    destruct (search_posting_total fts (default [] (cache fts !! k)) st)
      as [st' Hst']; [by apply wf_posting|done|].
    rewrite Hst'. apply IH.
    apply search_posting_inv in Hst' as (_ & -> & _). done.
Qed.

Lemma search_keys_inv fts query limit ks st st' :
  search_keys _Contains fts query limit ks st = Some st' →
  (∀ r, r ∈ st'.1 → r ∈ st.1 ∨ r ∈ json fts)
  ∧ ((limit ≤ 0)%Z → st'.1 = st.1)
  ∧ (∀ M, (∀ k, k ∈ ks → len (default [] (cache fts !! k)) ≤ M)%Z →
          (len st.1 < limit + M)%Z → (len st'.1 < limit + M)%Z).
Proof.
  revert st. induction ks as [|k ks IH]; intros st; simpl.
  - intros [= <-]. auto.
  - destruct (Z.geb_spec (len st.1) limit) as [Hge|Hlt].
    { intros [= <-]. auto. }
    assert (Hpos : ¬ (limit ≤ 0)%Z) by (unfold len in Hlt; lia).
    destruct (negb _).
    { intros H. destruct (IH _ H) as (H1 & H2 & H3).
      split; [done|]. split; [done|].
      intros M HM. apply H3. intros k' Hk'. apply HM. by right. }
    destruct (search_posting fts _ st) as [st1|] eqn:Hp; [|discriminate].
    intros H. destruct (IH _ H) as (H1 & _ & H3).
    apply search_posting_inv in Hp as (Hl & _ & Hsub).
    split; [|split; [done|]].
    + intros r Hr. destruct (H1 _ Hr) as [Hin|Hin]; [|by right]. by apply Hsub.
    + intros M HM _. apply H3.
      * intros k' Hk'. apply HM. by right.
      * specialize (HM k (list_elem_of_here _ _)). unfold len in *. lia.
Qed.

Lemma longest_posting_bound fts :
  (0 ≤ longest_posting fts)%Z
  ∧ ∀ k, k ∈ keys fts → (len (default [] (cache fts !! k)) ≤ longest_posting fts)%Z.
Proof.
  unfold longest_posting. induction (keys fts) as [|k ks [IH0 IH]]; simpl.
  - split; [lia|]. intros k Hk. by apply elem_of_nil in Hk.
  - split; [lia|]. intros k' Hk'. apply elem_of_cons in Hk' as [->|Hk']; [lia|].
    specialize (IH _ Hk'). lia.
Qed.

(** ** The strict loop *)

Lemma strict_posting_spec fts posting result :
  Forall (in_range fts) posting →
  ∃ found, strict_posting fts posting result = Some (result ++ found)
           ∧ Forall2 (λ r i, Go.index (json fts) i = Some r) found posting.
Proof.
  intros Hp. revert result. induction Hp as [|i posting Hi _ IH]; intros result; simpl.
  - exists []. by rewrite app_nil_r.
  - destruct (index_is_Some (json fts) i) as [r Hr]; [done|]. rewrite Hr.
    destruct (IH (result ++ [r])) as (found & -> & Hf).
    exists (r :: found). rewrite <- app_assoc. split; [done|]. by constructor.
Qed.

Lemma strict_posting_sub fts posting result result' :
  strict_posting fts posting result = Some result' →
  ∀ r, r ∈ result' → r ∈ result ∨ r ∈ json fts.
Proof.
  revert result. induction posting as [|i posting IH]; intros result; simpl.
  - intros [= <-]. auto.
  - destruct (Go.index (json fts) i) as [r|] eqn:Hr; [|discriminate].
    intros H r' Hr'. destruct (IH _ H _ Hr') as [Hin|Hin]; [|by right].
    apply elem_of_app in Hin as [Hin|Hin]; [by left|].
    apply list_elem_of_singleton in Hin as ->. right. eapply index_elem_of, Hr.
Qed.

(** ** [_Search] *)

Lemma Search_total fts query limit strict :
  wf fts → is_Some (_Search _Contains fts query limit strict).
Proof.
  intros Hwf. unfold _Search.
  destruct (slen query =? 0)%Z; [by eexists|].
  destruct strict.
  - destruct (cache fts !! query) as [p|] eqn:Hq; [|by eexists].
    destruct (strict_posting_spec fts p []) as (found & -> & _); [|by eexists].
    eapply (Hwf query), Hq.
  - apply search_keys_total; [done|]. simpl. apply length_replicate.
Qed.

Lemma Search_sub fts query limit strict result ix :
  _Search _Contains fts query limit strict = Some (result, ix) →
  ∀ r, r ∈ result → r ∈ json fts.
Proof.
  unfold _Search. destruct (slen query =? 0)%Z.
  { intros [= <- <-] r Hr. by apply elem_of_nil in Hr. }
  destruct strict.
  - destruct (cache fts !! query) as [p|].
    + destruct (strict_posting fts p []) as [res|] eqn:Hs; [|discriminate].
      intros [= <- <-] r Hr.
      destruct (strict_posting_sub _ _ _ _ Hs _ Hr) as [Hin|]; [|done].
      by apply elem_of_nil in Hin.
    + intros [= <- <-] r Hr. by apply elem_of_nil in Hr.
  - intros H r Hr. apply search_keys_inv in H as (Hsub & _).
    destruct (Hsub _ Hr) as [Hin|]; [|done]. by apply elem_of_nil in Hin.
Qed.

(** ** The single-word search returns no position twice *)

Lemma search_posting_marked fts posting st st' :
  NoDup (json fts) →
  search_posting fts posting st = Some st' →
  marked fts st → marked fts st'.
Proof.
  intros Hj. revert st. induction posting as [|i posting IH]; intros [res ind]; simpl.
  - by intros [= <-].
  - destruct (Go.index ind i) as [seen|] eqn:Hseen; [|discriminate].
    destruct (Z.eqb_spec seen (-1)) as [->|Hne]; [apply IH|].
    destruct (Go.index (json fts) i) as [r|] eqn:Hr; [|discriminate].
    destruct (Go.set_index ind i (-1)%Z) as [ind'|] eqn:Hset; [|discriminate].
    intros Hs [Hnd Hm]. apply (IH _ Hs). simpl in *.
    apply index_Some in Hseen as [Hi Hseen]. apply index_Some in Hr as [_ Hr].
    unfold Go.set_index in Hset. destruct (i <? 0)%Z; [discriminate|].
    destruct (decide _) as [Hlt|]; [|discriminate]. injection Hset as <-.
    assert (Hnew : r ∉ res).
    { intros Hin. specialize (Hm _ _ Hr Hin). rewrite Hseen in Hm. by injection Hm. }
    split; simpl.
    + apply NoDup_app. split; [done|]. split; [|apply NoDup_singleton].
      intros x Hx Hx'. apply list_elem_of_singleton in Hx' as ->. done.
    + intros i' r' Hi' Hin. destruct (decide (i' = Z.to_nat i)) as [->|Hd].
      * by apply list_lookup_insert_eq.
      * rewrite list_lookup_insert_ne by done.
        apply elem_of_app in Hin as [Hin|Hin]; [by eapply Hm|].
        apply list_elem_of_singleton in Hin as ->.
        destruct Hd. exact (NoDup_lookup _ _ _ _ Hj Hi' Hr).
Qed.

Lemma search_keys_marked fts query limit ks st st' :
  NoDup (json fts) →
  search_keys _Contains fts query limit ks st = Some st' →
  marked fts st → marked fts st'.
Proof.
  intros Hj. revert st. induction ks as [|k ks IH]; intros st; simpl.
  - by intros [= <-].
  - destruct (len st.1 >=? limit)%Z; [by intros [= <-]|].
    destruct (negb _); [apply IH|].
    destruct (search_posting fts _ st) as [st1|] eqn:Hp; [|discriminate].
    intros Hs Hm. apply (IH _ Hs). eapply search_posting_marked; eassumption.
Qed.

(** X1.  The marks of the non-strict [_Search] keep a record from being returned
    twice, when no two positions of [json] hold the same map object. *)
Lemma nonstrict_search_no_repeat fts query limit result ix :
  NoDup (json fts) →
  _Search _Contains fts query limit false = Some (result, ix) →
  NoDup result.
Proof.
  intros Hj. unfold _Search. destruct (slen query =? 0)%Z.
  { intros [= <- <-]. constructor. }
  intros Hs. apply (search_keys_marked _ _ _ _ _ _ Hj) in Hs as [Hnd _]; [done|].
  split; simpl; [constructor|]. intros i r _ Hin. by apply elem_of_nil in Hin.
Qed.

End SearchTheory.

(** * The claims about the search file *)
Section SearchClaims.
Import Go FTS.
Context (_Contains _ContainsIgnoreCase : string → string → bool).

Lemma append_matches_elem test keys h r res r' :
  r' ∈ append_matches test keys h r res ↔ r' ∈ res ∨ (r' = r ∧ has_match test keys h r).
Proof.
  unfold append_matches, has_match.
  assert (Hl : ∀ kv, kv ∈ map_to_list (deref h r) ↔ deref h r !! kv.1 = Some kv.2).
  { intros [k v]. apply elem_of_map_to_list. }
  revert Hl. generalize (map_to_list (deref h r)) as l. generalize (deref h r) as m.
  intros m l Hl.
  transitivity (r' ∈ res ∨ (r' = r ∧ ∃ kv, kv ∈ l ∧ flagged keys kv.1 = true ∧ test kv.2 = true)).
  - clear Hl. revert res. induction l as [|kv l IH]; intros res; simpl.
    + split; [auto|]. intros [?|(_ & kv & Hkv & _)]; [done|]. by apply elem_of_nil in Hkv.
    + rewrite IH. setoid_rewrite elem_of_cons.
      destruct (flagged keys kv.1) eqn:Hf; simpl; [destruct (test kv.2) eqn:Ht|].
      * rewrite elem_of_app, list_elem_of_singleton. naive_solver.
      * naive_solver congruence.
      * naive_solver congruence.
  - split; (intros [?|(-> & H)]; [by left|right; split; [done|]]).
    + destruct H as ([k v] & Hin & ?). exists k, v. split; [by apply Hl in Hin|done].
    + destruct H as (k & v & Hin & ?). exists (k, v). split; [by apply Hl|done].
Qed.

Lemma filter_records_elem test keys h found res r :
  r ∈ filter_records test keys h found res
  ↔ r ∈ res ∨ (r ∈ found ∧ has_match test keys h r).
Proof.
  unfold filter_records. revert res. induction found as [|r0 found IH]; intros res; simpl.
  - split; [auto|]. intros [?|[H _]]; [done|]. by apply elem_of_nil in H.
  - rewrite IH, append_matches_elem, elem_of_cons. naive_solver.
Qed.

Lemma search_words_total h fts query limit strict keys ws res :
  wf fts →
  is_Some (search_words _Contains h fts query limit strict keys ws res).
Proof.
  intros Hwf. revert res. induction ws as [|w ws IH]; intros res; simpl.
  - by eexists.
  - unfold Search.
    destruct (Search_total _Contains fts w limit strict Hwf) as [[found ix] ->].
    apply IH.
Qed.

Lemma search_words_elem h fts query limit strict keys ws res result r :
  search_words _Contains h fts query limit strict keys ws res = Some result →
  r ∈ result ↔
    r ∈ res ∨
    ((∃ w found ix, w ∈ ws ∧ _Search _Contains fts w limit strict = Some (found, ix)
                    ∧ r ∈ found)
     ∧ has_match (λ value, _Contains value query) keys h r).
Proof.
  revert res. induction ws as [|w ws IH]; intros res; simpl.
  - intros [= <-]. split; [auto|]. intros [?|[(w & ? & ? & Hw & _) _]]; [done|].
    by apply elem_of_nil in Hw.
  - unfold Search.
    destruct (_Search _Contains fts w limit strict) as [[found ix]|] eqn:Hs; [|discriminate].
    intros H. rewrite (IH _ H), filter_records_elem. split.
    + intros [[?|[Hin Hm]]|[(w' & f' & i' & Hw' & Hs' & Hin) Hm]]; [by left|..].
      * right. split; [|done]. exists w, found, ix. split; [by left|done].
      * right. split; [|done]. exists w', f', i'. split; [by right|done].
    + intros [?|[(w' & f' & i' & Hw' & Hs' & Hin) Hm]]; [by left; left|].
      apply elem_of_cons in Hw' as [->|Hw'].
      * left. right. rewrite Hs in Hs'. by injection Hs' as <- <-.
      * right. split; [|done]. by exists w', f', i'.
Qed.

(** C2 (amended).  For a query of two or more space-separated words, the
    result of the multi-word search holds a record if and only if the
    record is found by the single-word search of at least one of the words
    and one of its fields flagged in [keys] contains the whole query: the
    candidates of the words are not intersected. *)
Theorem multiword_search_members h fts query limit strict keys :
  wf fts →
  (1 < length (Split (TrimSpace query)))%nat →
  ∃ result,
    _SearchWithSpaces _Contains h fts query limit strict keys = Some (result, [])
    ∧ ∀ r, r ∈ result ↔
        (∃ w found ix, w ∈ Split (TrimSpace query)
                       ∧ _Search _Contains fts w limit strict = Some (found, ix)
                       ∧ r ∈ found)
        ∧ has_match (λ value, _Contains value query) keys h r.
Proof.
  intros Hwf Hlen. unfold _SearchWithSpaces.
  destruct (Split (TrimSpace query)) as [|w1 [|w2 ws]] eqn:Hw; simpl in Hlen; [lia..|].
  destruct (search_words_total h fts query limit strict keys (w1 :: w2 :: ws) [] Hwf)
    as [result Hres].
  rewrite Hres. exists result. split; [done|].
  intros r. rewrite (search_words_elem _ _ _ _ _ _ _ _ _ r Hres).
  split; [|auto]. intros [Hnil|?]; [|done]. by apply elem_of_nil in Hnil.
Qed.

(** C3 (amended).  A non-strict search tests the limit before each word of
    the index, not after each record: with a positive limit it returns
    fewer than [limit] plus the longest posting records, and with a limit
    of zero or less it returns no record. *)
Theorem nonstrict_search_limit fts query limit :
  wf fts →
  ∃ result ix,
    _Search _Contains fts query limit false = Some (result, ix)
    ∧ ((limit ≤ 0)%Z → result = [])
    ∧ ((0 < limit)%Z → (len result < limit + longest_posting fts)%Z).
Proof.
  intros Hwf.
  destruct (Search_total _Contains fts query limit false Hwf) as [[result ix] Hs].
  exists result, ix. split; [done|].
  destruct (longest_posting_bound fts) as [H0 HM].
  unfold _Search in Hs. destruct (slen query =? 0)%Z.
  { injection Hs as <- <-. split; [done|]. unfold len. simpl. lia. }
  apply search_keys_inv in Hs as (_ & Hle & Hlt). simpl in *.
  split; [done|]. intros Hpos. apply Hlt; [done|]. unfold len. simpl. lia.
Qed.

(** C4 (amended).  A strict search of a non-empty query returns the records
    at the positions of the posting stored under the query as it is given,
    in posting order, all of them: the limit is not applied. *)
Theorem strict_search_posting fts query limit :
  wf fts →
  query ≠ EmptyString →
  ∃ result ix,
    _Search _Contains fts query limit true = Some (result, ix)
    ∧ Forall2 (λ r i, Go.index (json fts) i = Some r)
              result (default [] (cache fts !! query))
    ∧ length result = length (default [] (cache fts !! query)).
Proof.
  intros Hwf Hq. unfold _Search.
  destruct (slen query =? 0)%Z eqn:Hz; [by apply slen_zero in Hz|].
  destruct (cache fts !! query) as [p|] eqn:Hp; simpl.
  - destruct (strict_posting_spec fts p []) as (found & -> & Hf).
    { eapply (Hwf query), Hp. }
    exists found, p. split; [done|]. split; [done|]. eapply Forall2_length, Hf.
  - eexists [], _. split; [done|]. split; [constructor|done].
Qed.

(** C6 (amended).  [_SearchInJson] and [_SearchInJsonWithKey] read the
    records of [json] only, match with [_ContainsIgnoreCase] on the fields
    flagged in the schema (on the field [key]), and return every matching
    record: neither the limit nor the index changes the result. *)
Theorem json_search_unlimited h fts query key limit keys :
  (∀ r, r ∈ _SearchInJson _ContainsIgnoreCase h fts query limit keys
        ↔ r ∈ json fts
          ∧ has_match (λ value, _ContainsIgnoreCase value query) keys h r)
  ∧ _SearchInJsonWithKey _ContainsIgnoreCase h fts query key limit
    = filter (λ r, _ContainsIgnoreCase (default EmptyString (deref h r !! key)) query = true)
             (json fts)
  ∧ (∀ limit' cache' keys',
       _SearchInJson _ContainsIgnoreCase h (mkFTS (json fts) cache' keys') query limit' keys
       = _SearchInJson _ContainsIgnoreCase h fts query limit keys
       ∧ _SearchInJsonWithKey _ContainsIgnoreCase h (mkFTS (json fts) cache' keys') query key limit'
         = _SearchInJsonWithKey _ContainsIgnoreCase h fts query key limit).
Proof.
  split; [|split].
  - intros r. unfold _SearchInJson. rewrite filter_records_elem.
    split; [|auto]. intros [Hnil|?]; [|done]. by apply elem_of_nil in Hnil.
  - unfold _SearchInJsonWithKey.
    enough (H : ∀ l acc,
      foldl (λ res r, if _ContainsIgnoreCase (default EmptyString (deref h r !! key)) query
                      then res ++ [r] else res) acc l
      = acc ++ filter (λ r, _ContainsIgnoreCase (default EmptyString (deref h r !! key)) query = true) l)
      by apply (H _ []).
    induction l as [|r l IH]; intros acc; simpl.
    + by rewrite app_nil_r.
    + rewrite IH, filter_cons.
      destruct (_ContainsIgnoreCase _ query) eqn:Ht.
      * rewrite decide_True by done. by rewrite <- app_assoc.
      * rewrite decide_False by congruence. done.
  - done.
Qed.

(** C7 (amended).  The records a search returns are not copies: each one is
    a reference held in [json], so a write to a field of a returned record
    is a write to the record of the store at that position. *)
Theorem search_results_alias (h h' : heap) fts query limit strict result ix r k v :
  _Search _Contains fts query limit strict = Some (result, ix) →
  r ∈ result →
  Go.store h r k v = Some h' →
  ∃ i, json fts !! i = Some r
       ∧ contents h' fts !! i = Some (<[k := v]> (deref h r))
       ∧ deref h' r !! k = Some v.
Proof.
  intros Hs Hr Hst.
  apply (Search_sub _ _ _ _ _ _ _ Hs) in Hr.
  apply list_elem_of_lookup in Hr as [i Hi]. exists i. split; [done|].
  unfold Go.store in Hst. destruct r as [l|]; [|discriminate].
  destruct (h !! l) as [m|] eqn:Hl; [|discriminate]. injection Hst as <-.
  assert (Hd : deref (<[l:=<[k:=v]> m]> h) (Some l) = <[k:=v]> (deref h (Some l))).
  { simpl. by rewrite lookup_insert_eq, Hl. }
  split.
  - unfold contents. by rewrite list_lookup_fmap, Hi, <- Hd.
  - rewrite Hd. apply lookup_insert_eq.
Qed.

End SearchClaims.

(** * Properties of the heap operations and of the merge loop *)
Section StoreTheory.
Import Go Store.

Lemma deref_store {V} (h h' : gmap loc (gmap string V)) r k v :
  store h r k v = Some h' → deref h' r = <[k := v]> (deref h r).
Proof.
  unfold store. destruct r as [l|]; [|discriminate].
  destruct (h !! l) as [m|] eqn:Hl; [|discriminate]. intros [= <-].
  simpl. by rewrite lookup_insert_eq, Hl.
Qed.

Lemma deref_store_ne {V} (h h' : gmap loc (gmap string V)) r r' k v :
  store h r k v = Some h' → r' ≠ r → deref h' r' = deref h r'.
Proof.
  unfold store. destruct r as [l|]; [|discriminate].
  destruct (h !! l) as [m|] eqn:Hl; [|discriminate]. intros [= <-] Hne.
  destruct r' as [l'|]; [|done]. simpl.
  rewrite lookup_insert_ne; [done|congruence].
Qed.

Lemma store_is_Some {V} (h : gmap loc (gmap string V)) r k k' v :
  is_Some (deref h r !! k') → is_Some (store h r k v).
Proof.
  unfold store, deref. destruct r as [l|]; [|by rewrite lookup_empty; intros [? ?]].
  destruct (h !! l) as [m|]; simpl; [by eexists|].
  rewrite lookup_empty. by intros [? ?].
Qed.

Context `{!MapOrder}.

Lemma elem_of_range {V} (m : gmap string V) k v :
  (k, v) ∈ range m ↔ m !! k = Some v.
Proof. rewrite (range_perm V m). apply elem_of_map_to_list. Qed.

Lemma elem_of_range_keys {V} (m : gmap string V) k :
  k ∈ (range m).*1 ↔ is_Some (m !! k).
Proof.
  rewrite list_elem_of_fmap. split.
  - intros ([k' v] & -> & Hin). apply elem_of_range in Hin. by eexists.
  - intros [v Hv]. exists (k, v). split; [done|]. by apply elem_of_range.
Qed.

Lemma NoDup_range_keys {V} (m : gmap string V) : NoDup (range m).*1.
Proof. rewrite (range_perm V m). apply NoDup_fst_map_to_list. Qed.

Lemma range_empty {V} (m : gmap string V) : m = ∅ → range m = [].
Proof.
  intros ->. apply Permutation_nil_r. rewrite (range_perm V ∅).
  by rewrite map_to_list_empty.
Qed.

(** What the merge loop leaves: the table of the cache as it was, and in
    [data] the entries of the keys visited before the loop ended. *)
Lemma merge_keys_spec src data ks tbl tbl' e :
  merge_keys src data ks tbl = Some (tbl', e) →
  NoDup ks →
  (∀ k, k ∈ ks → is_Some (deref tbl src !! k)) →
  deref tbl' src = deref tbl src
  ∧ ∃ copied,
      copied `prefix_of` ks
      ∧ (∀ k, k ∈ copied → deref tbl data !! k = None)
      ∧ (∀ k, deref tbl' data !! k
              = if decide (k ∈ copied) then deref tbl src !! k else deref tbl data !! k)
      ∧ match e with
        | None => copied = ks
        | Some err => ∃ k, err = key_exists k ∧ k ∈ ks
                           ∧ is_Some (deref tbl data !! k)
                           ∧ is_Some (deref tbl src !! k)
        end.
Proof.
  revert tbl. induction ks as [|k0 rest IH]; intros tbl; simpl.
  - intros [= <- <-] _ _. split; [done|]. exists []. split; [done|].
    split; [by intros k Hk; apply elem_of_nil in Hk|]. split; [|done].
    intros k. by rewrite decide_False by apply not_elem_of_nil.
  - intros Hm Hnd Hsrc. apply NoDup_cons in Hnd as [Hk0 Hnd].
    destruct (deref tbl data !! k0) as [r|] eqn:Hd.
    + injection Hm as <- <-. split; [done|]. exists []. split; [apply prefix_nil|].
      split; [by intros k Hk; apply elem_of_nil in Hk|]. split.
      * intros k. by rewrite decide_False by apply not_elem_of_nil.
      * exists k0. rewrite Hd. split; [done|]. split; [by left|].
        split; [by eexists|]. apply Hsrc. by left.
    + destruct (store tbl data k0 _) as [tbl1|] eqn:Hst; [|discriminate].
      destruct (Hsrc k0) as [r0 Hr0]; [by left|].
      assert (Hne : src ≠ data) by (intros ->; congruence).
      pose proof (deref_store_ne _ _ _ _ _ _ Hst Hne) as Hs1.
      pose proof (deref_store _ _ _ _ _ Hst) as Hd1.
      rewrite Hr0 in Hd1. simpl in Hd1.
      destruct (IH tbl1 Hm Hnd) as (Hs' & copied & Hpre & Hnone & Hpt & He).
      { intros k Hk. rewrite Hs1. apply Hsrc. by right. }
      split; [congruence|]. exists (k0 :: copied).
      split; [by apply prefix_cons|].
      assert (Hk0c : k0 ∉ copied).
      { intros Hin. apply Hk0. destruct Hpre as [t ->]. apply elem_of_app. by left. }
      split; [|split].
      * intros k Hk. apply elem_of_cons in Hk as [->|Hk]; [done|].
        specialize (Hnone k Hk). rewrite Hd1 in Hnone.
        by apply lookup_insert_None in Hnone as [? _].
      * intros k. rewrite Hpt. destruct (decide (k = k0)) as [->|Hkk].
        -- rewrite decide_False by done. rewrite decide_True by (by left).
           by rewrite Hd1, lookup_insert_eq.
        -- rewrite Hs1, Hd1, lookup_insert_ne by done.
           destruct (decide (k ∈ copied)) as [Hin|Hin].
           ++ by rewrite decide_True by (by right).
           ++ rewrite decide_False; [done|].
              intros Hc. apply elem_of_cons in Hc as [?|?]; done.
      * destruct e as [err|]; [|by subst].
        destruct He as (k & -> & Hk & Hdk & Hsk). exists k. split; [done|].
        split; [by right|]. rewrite Hs1 in Hsk. split; [|done].
        rewrite Hd1, lookup_insert_ne in Hdk; [done|]. intros ->. done.
Qed.

(** A key of [data] that the loop visits ends the loop with an error. *)
Lemma merge_keys_collides src data ks tbl k :
  k ∈ ks →
  is_Some (deref tbl data !! k) →
  ∃ tbl' err, merge_keys src data ks tbl = Some (tbl', Some err).
Proof.
  revert tbl. induction ks as [|k0 rest IH]; intros tbl Hk Hd; simpl.
  - by apply elem_of_nil in Hk.
  - destruct (deref tbl data !! k0) as [r|] eqn:Hd0; [by eexists _, _|].
    destruct (store_is_Some tbl data k0 k (default None (deref tbl src !! k0)) Hd)
      as [tbl1 Hst].
    rewrite Hst. apply IH.
    + apply elem_of_cons in Hk as [->|Hk]; [|done].
      rewrite Hd0 in Hd. by destruct Hd.
    + rewrite (deref_store _ _ _ _ _ Hst), lookup_insert_is_Some.
      destruct (decide (k0 = k)); [by left|by right].
Qed.

End StoreTheory.

(** * Properties of [FullText.insert] *)
Section InsertTheory.
Import Go Store Hermes.
Context `{!Helpers, !MapOrder}.

Lemma replace_field_lookup m k0 v0 k :
  m !! k0 = Some v0 →
  replace_field m (k0, v0) !! k
  = if decide (k = k0) then Some (extracted v0) else m !! k.
Proof.
  intros Hv0. unfold replace_field, extracted. simpl.
  destruct (slen (WFTGetValue v0) =? 0)%Z.
  - destruct (decide (k = k0)) as [->|]; done.
  - destruct (decide (k = k0)) as [->|].
    + apply lookup_insert_eq.
    + by apply lookup_insert_ne.
Qed.

Lemma foldl_replace_field_lookup fields m k :
  NoDup fields.*1 →
  (∀ k' v, (k', v) ∈ fields → m !! k' = Some v) →
  foldl replace_field m fields !! k
  = if decide (k ∈ fields.*1) then extracted <$> m !! k else m !! k.
Proof.
  revert m. induction fields as [|[k0 v0] rest IH]; intros m Hnd Hin; csimpl.
  - done.
  - csimpl in Hnd. apply NoDup_cons in Hnd as [Hk0 Hnd].
    assert (Hv0 : m !! k0 = Some v0) by (apply Hin; by left).
    rewrite IH; [|done|].
    + rewrite !replace_field_lookup by done.
      destruct (decide (k = k0)) as [->|Hne].
      * rewrite decide_False by done. rewrite decide_True by (by left).
        by rewrite Hv0.
      * destruct (decide (k ∈ rest.*1)) as [Hr|Hr].
        -- by rewrite decide_True by (by right).
        -- rewrite decide_False; [done|]. intros Hc.
           apply elem_of_cons in Hc as [?|?]; done.
    + intros k' v Hkv. rewrite replace_field_lookup by done.
      rewrite decide_False; [apply Hin; by right|].
      intros ->. apply Hk0. apply list_elem_of_fmap. by exists (k0, v).
Qed.

Lemma foldl_replace_field_range m :
  foldl replace_field m (range m) = extracted <$> m.
Proof.
  apply map_eq. intros k.
  rewrite foldl_replace_field_lookup.
  - rewrite lookup_fmap. destruct (decide _) as [|Hn]; [done|].
    rewrite elem_of_range_keys in Hn.
    destruct (m !! k); [|done]. destruct Hn. by eexists.
  - apply NoDup_range_keys.
  - intros k' v. apply elem_of_range.
Qed.

Lemma insert_fields_ok tbl data cacheKey fields recs ts ft recs' ts' ft' l m :
  insert_fields tbl data cacheKey fields (recs, ts, ft) = Some ((recs', ts', ft'), None) →
  default None (deref tbl data !! cacheKey) = Some l →
  recs !! l = Some m →
  recs' = <[l := foldl replace_field m fields]> recs.
Proof.
  intros Hi Ht. revert recs ts ft m Hi.
  induction fields as [|[k v] rest IH]; intros recs ts ft m; simpl.
  - intros [= <- <- <-] Hm. by rewrite insert_id.
  - rewrite Ht. unfold replace_field at 2. simpl.
    destruct (slen (WFTGetValue v) =? 0)%Z; [apply IH|].
    intros Hi Hm. unfold store in Hi. rewrite Hm in Hi.
    destruct (ts_insert ts ft cacheKey (WFTGetValue v)) as [[ts1 ft1] [err|]];
      [discriminate|].
    rewrite (IH _ _ _ (<[k:=VStr (WFTGetValue v)]> m) Hi); [|apply lookup_insert_eq].
    apply insert_insert_eq.
Qed.

Lemma insert_fields_touch tbl data cacheKey r recs ts ft recs' ts' ft' :
  insert_fields tbl data cacheKey (range (deref recs r)) (recs, ts, ft)
    = Some ((recs', ts', ft'), None) →
  default None (deref tbl data !! cacheKey) = r →
  recs' = touch recs r.
Proof.
  intros Hi Ht. destruct r as [l|]; simpl in *.
  - destruct (recs !! l) as [m|] eqn:Hm; simpl in *.
    + rewrite (insert_fields_ok _ _ _ _ _ _ _ _ _ _ _ _ Hi Ht Hm).
      rewrite foldl_replace_field_range. apply map_eq. intros l'.
      rewrite lookup_alter, lookup_insert.
      destruct (decide (l = l')) as [<-|]; [by rewrite Hm|done].
    + rewrite range_empty in Hi by done. injection Hi as <- <- <-.
      apply map_eq. intros l'. rewrite lookup_alter.
      destruct (decide (l = l')) as [<-|]; [by rewrite Hm|done].
  - rewrite range_empty in Hi by done. by injection Hi as <- <- <-.
Qed.

Lemma insert_records_touch tbl data entries recs ts ft recs' ts' ft' :
  insert_records tbl data entries (recs, ts, ft) = Some ((recs', ts', ft'), None) →
  (∀ k r, (k, r) ∈ entries → deref tbl data !! k = Some r) →
  recs' = foldl touch recs entries.*2.
Proof.
  revert recs ts ft. induction entries as [|[k r] rest IH]; intros recs ts ft; simpl.
  - by intros [= <- <- <-] _.
  - intros Hi Hin.
    destruct (insert_fields tbl data k (range (deref recs r)) (recs, ts, ft))
      as [[[[recs1 ts1] ft1] [err|]]|] eqn:Hf; [by injection Hi| |discriminate].
    apply insert_fields_touch in Hf as ->.
    + apply (IH _ _ _ Hi). intros k' r' Hk'. apply Hin. by right.
    + rewrite (Hin k r); [done|by left].
Qed.

Lemma foldl_touch_lookup refs recs l :
  foldl touch recs refs !! l
  = Nat.iter (length (filter (λ r, r = Some l) refs)) (fmap extracted) <$> recs !! l.
Proof.
  revert recs. induction refs as [|r refs IH]; intros recs; simpl.
  - by destruct (recs !! l).
  - rewrite IH, filter_cons. destruct (decide (r = Some l)) as [->|Hne].
    + simpl. rewrite lookup_alter, decide_True by done.
      destruct (recs !! l) as [m|]; simpl; [|done].
      f_equal. by rewrite <- Nat.iter_succ_r.
    + destruct r as [l'|]; simpl; [|done].
      rewrite lookup_alter, decide_False by congruence. done.
Qed.

Lemma refs_to_range (m : gmap string mapref) l :
  length (filter (λ r, r = Some l) (range m).*2) = refs_to m l.
Proof. unfold refs_to. by rewrite (range_perm _ m). Qed.

(** [insert] leaves the tables alone; when it returns no error, every record
    object has been visited once for each key of [data] that refers to
    it. *)
Lemma insert_spec ft h data h' ft' e :
  insert ft h data = Some (h', ft', e) →
  tables h' = tables h
  ∧ (e = None →
     ∀ l, records h' !! l
          = Nat.iter (refs_to (deref (tables h) data) l) (fmap extracted)
              <$> records h !! l).
Proof.
  unfold insert.
  destruct (insert_records _ _ _ _) as [[[[recs ts] ft1] [err|]]|] eqn:Hi;
    [| |discriminate].
  - intros [= <- <- <-]. done.
  - intros [= <- <- <-]. split; [done|]. intros _ l. simpl.
    apply insert_records_touch in Hi as ->.
    + by rewrite foldl_touch_lookup, refs_to_range.
    + intros k r. apply elem_of_range.
Qed.

End InsertTheory.

(** * Properties of the FT-init operations *)
Section InitTheory.
Import Go Store.
Context `{!MapOrder}.

Lemma alloc_fold_tables st l :
  tables (foldl alloc_record st l).1 = tables st.1.
Proof.
  revert st. induction l as [|kr l IH]; intros st; simpl; [done|].
  rewrite IH. unfold alloc_record. by destruct kr.2.
Qed.

Lemma alloc_fold_keys st l k :
  is_Some ((foldl alloc_record st l).2 !! k) ↔ is_Some (st.2 !! k) ∨ k ∈ l.*1.
Proof.
  revert st. induction l as [|kr l IH]; intros st; csimpl.
  - rewrite elem_of_nil. tauto.
  - rewrite IH, elem_of_cons. unfold alloc_record.
    destruct kr.2; simpl; rewrite lookup_insert_is_Some;
      destruct (decide (kr.1 = k)); naive_solver.
Qed.

(** Decoding a file leaves the live tables as they are, and the table it
    builds has the keys of the file. *)
Lemma alloc_json_spec h content data h1 :
  alloc_json h content = (data, h1) →
  (∀ r, live h r → deref (tables h1) r = deref (tables h) r)
  ∧ (∀ k, is_Some (deref (tables h1) data !! k) ↔ is_Some (content !! k)).
Proof.
  unfold alloc_json. intros [= <- <-]. simpl. split.
  - intros [l|] Hl; [|done]. simpl in *.
    rewrite lookup_insert_ne; [by rewrite alloc_fold_tables|].
    intros <-. rewrite alloc_fold_tables in Hl. simpl in Hl.
    apply elem_of_dom in Hl. by apply is_fresh in Hl.
  - intros k. rewrite lookup_insert_eq. simpl. rewrite alloc_fold_keys. simpl.
    rewrite lookup_empty, list_elem_of_fmap. split.
    + intros [[? ?]|([k' v] & -> & Hin)]; [done|].
      apply elem_of_map_to_list in Hin. by eexists.
    + intros [v Hv]. right. exists (k, v). split; [done|].
      by apply elem_of_map_to_list.
Qed.

(** From the entries the merge loop leaves to inclusions of maps. *)
Lemma merged_bounds (old st new : gmap string mapref) (copied ks : list string) :
  copied `prefix_of` ks →
  (∀ k, k ∈ ks ↔ is_Some (st !! k)) →
  (∀ k, k ∈ copied → old !! k = None) →
  (∀ k, new !! k = if decide (k ∈ copied) then st !! k else old !! k) →
  old ⊆ new ∧ new ⊆ old ∪ st ∧ (copied = ks → new = old ∪ st).
Proof.
  intros Hpre Hks Hnone Hpt. split; [|split].
  - apply map_subseteq_spec. intros k x Hk. rewrite Hpt.
    destruct (decide (k ∈ copied)) as [Hin|]; [|done].
    rewrite (Hnone _ Hin) in Hk. done.
  - apply map_subseteq_spec. intros k x. rewrite Hpt, lookup_union_Some_raw.
    destruct (decide (k ∈ copied)) as [Hin|]; [|by left].
    right. split; [by apply Hnone|done].
  - intros ->. apply map_eq. intros k. rewrite Hpt.
    destruct (decide (k ∈ ks)) as [Hin|Hin].
    + rewrite lookup_union_r; [done|by apply Hnone].
    + rewrite lookup_union_l; [done|].
      rewrite Hks in Hin. by apply eq_None_not_Some.
Qed.

Section Hermes.
Import Hermes.
Context `{!Helpers}.

(** [ftInitWithMap]: what becomes of the table of the cache and of the
    table [data], whatever the outcome. *)
Lemma ftInitWithMap_spec h c data maxSize maxBytes minWordLength h' c' e :
  ftInitWithMap h c data maxSize maxBytes minWordLength = Some (h', c', e) →
  deref (tables h') (Hermes.data c) = deref (tables h) (Hermes.data c)
  ∧ deref (tables h) data ⊆ deref (tables h') data
  ∧ deref (tables h') data ⊆ deref (tables h) data ∪ deref (tables h) (Hermes.data c)
  ∧ match e with
    | Some _ => c' = c
    | None =>
        Hermes.data c' = data ∧ is_Some (ft c')
        ∧ deref (tables h') data
          = deref (tables h) data ∪ deref (tables h) (Hermes.data c)
        ∧ ∀ l, records h' !! l
               = Nat.iter (refs_to (deref (tables h') data) l) (fmap extracted)
                   <$> records h !! l
    end.
Proof.
  unfold ftInitWithMap.
  destruct (merge_keys _ _ _ _) as [[tbl err]|] eqn:Hm; [|discriminate].
  apply merge_keys_spec in Hm as (Hsrc & copied & Hpre & Hnone & Hpt & He);
    [|apply NoDup_range_keys|by intros k ?; apply elem_of_range_keys].
  destruct (merged_bounds _ _ _ _ _ Hpre
              (elem_of_range_keys (deref (tables h) (Hermes.data c))) Hnone Hpt)
    as (Hle & Hge & Hall).
  destruct err as [err|].
  { intros [= <- <- <-]. done. }
  destruct (insert _ _ data) as [[[h2 ft2] e2]|] eqn:Hi; [|discriminate].
  apply insert_spec in Hi as [Ht Hrec]. simpl in Ht.
  destruct e2 as [err|]; intros [= <- <- <-]; rewrite Ht; [done|].
  split; [done|]. split; [done|]. split; [done|]. simpl.
  split; [done|]. split; [by eexists|]. split; [by apply Hall|].
  intros l. by rewrite (Hrec eq_refl l).
Qed.

(** A key of [data] that is a key of the cache makes [ftInitWithMap] fail. *)
Lemma ftInitWithMap_collides h c data maxSize maxBytes minWordLength k :
  is_Some (deref (tables h) data !! k) →
  is_Some (deref (tables h) (Hermes.data c) !! k) →
  ∃ h' k',
    ftInitWithMap h c data maxSize maxBytes minWordLength
      = Some (h', c, Some (key_exists k'))
    ∧ is_Some (deref (tables h) data !! k')
    ∧ is_Some (deref (tables h) (Hermes.data c) !! k').
Proof.
  intros Hd Hs. unfold ftInitWithMap.
  destruct (merge_keys_collides (Hermes.data c) data
              (range (deref (tables h) (Hermes.data c))).*1 (tables h) k)
    as (tbl & err & Hm); [by apply elem_of_range_keys|done|].
  rewrite Hm.
  apply merge_keys_spec in Hm as (_ & copied & _ & _ & _ & k' & -> & _ & ? & ?);
    [|apply NoDup_range_keys|by intros ? ?; apply elem_of_range_keys].
  by eexists _, k'.
Qed.

Lemma run_already op h c maxSize maxBytes minWordLength :
  initialized c = true →
  run op h c maxSize maxBytes minWordLength = Some (h, c, Some (already op)).
Proof.
  unfold initialized. intros Hi. apply bool_decide_eq_true in Hi as [ft0 Hft].
  destruct op; simpl; unfold FTInit, FTInitWithMap, FTInitWithJson; by rewrite Hft.
Qed.

Lemma run_failure op h c maxSize maxBytes minWordLength h' c' err :
  run op h c maxSize maxBytes minWordLength = Some (h', c', Some err) →
  live h (Hermes.data c) →
  c' = c ∧ deref (tables h') (Hermes.data c) = deref (tables h) (Hermes.data c).
Proof.
  intros Hr Hlive. destruct op; simpl in Hr.
  - unfold FTInit in Hr. destruct (ft c); [by injection Hr as <- <-|].
    unfold ftInit in Hr.
    destruct (insert _ _ _) as [[[h2 ft2] [e2|]]|] eqn:Hi; [|discriminate..].
    injection Hr as <- <- <-. apply insert_spec in Hi as [-> _]. done.
  - unfold FTInitWithMap in Hr. destruct (ft c); [by injection Hr as <- <-|].
    apply ftInitWithMap_spec in Hr as (? & _ & _ & ?). done.
  - unfold FTInitWithJson in Hr. destruct (ft c); [by injection Hr as <- <-|].
    unfold ftInitWithJson in Hr.
    destruct (ReadJson file) as [e1|content]; [by injection Hr as <- <-|].
    destruct (alloc_json h content) as [data h1] eqn:Ha.
    apply alloc_json_spec in Ha as [Hfr _].
    apply ftInitWithMap_spec in Hr as (-> & _ & _ & ->). by rewrite Hfr.
Qed.

Lemma FTInit_success h c maxSize maxBytes minWordLength h' c' :
  FTInit h c maxSize maxBytes minWordLength = Some (h', c', None) →
  initialized c = false ∧ initialized c' = true.
Proof.
  unfold FTInit, initialized. destruct (ft c) eqn:Hft; [discriminate|].
  unfold ftInit. destruct (insert _ _ _) as [[[h2 ft2] [e2|]]|]; [discriminate| |discriminate].
  intros [= <- <-]. simpl. done.
Qed.

Lemma FTInitWithJson_collides h c file content maxSize maxBytes minWordLength k :
  ft c = None →
  live h (Hermes.data c) →
  ReadJson file = inr content →
  is_Some (content !! k) →
  is_Some (deref (tables h) (Hermes.data c) !! k) →
  ∃ h' k',
    FTInitWithJson h c file maxSize maxBytes minWordLength
      = Some (h', c, Some (key_exists k'))
    ∧ is_Some (content !! k')
    ∧ is_Some (deref (tables h) (Hermes.data c) !! k').
Proof.
  intros Hft Hlive Hread Hk Hs. unfold FTInitWithJson, ftInitWithJson.
  rewrite Hft, Hread. destruct (alloc_json h content) as [data h1] eqn:Ha.
  apply alloc_json_spec in Ha as [Hfr Hkeys].
  destruct (ftInitWithMap_collides h1 c data maxSize maxBytes minWordLength k)
    as (h' & k' & -> & Hd' & Hs'); [by apply Hkeys|by rewrite Hfr|].
  exists h', k'. split; [done|]. split; [by apply Hkeys|by rewrite <- Hfr].
Qed.

End Hermes.

Section Cache.
Import Cache.
Context `{!Helpers}.

Lemma initFTWithMap_collides h c data maxWords maxSizeBytes schema k :
  is_Some (deref (tables h) data !! k) →
  is_Some (deref (tables h) (Cache.data c) !! k) →
  ∃ h' c' k',
    initFTWithMap h c data maxWords maxSizeBytes schema
      = Some (h', c', Some (key_exists k'))
    ∧ initialized c' = false ∧ Cache.data c' = Cache.data c
    ∧ is_Some (deref (tables h) data !! k')
    ∧ is_Some (deref (tables h) (Cache.data c) !! k').
Proof.
  intros Hd Hs. unfold initFTWithMap. simpl.
  destruct (merge_keys_collides (Cache.data c) data
              (range (deref (tables h) (Cache.data c))).*1 (tables h) k)
    as (tbl & err & Hm); [by apply elem_of_range_keys|done|].
  rewrite Hm.
  apply merge_keys_spec in Hm as (_ & copied & _ & _ & _ & k' & -> & _ & ? & ?);
    [|apply NoDup_range_keys|by intros ? ?; apply elem_of_range_keys].
  by eexists _, _, k'.
Qed.

Lemma initFTWithMap_failure h c data maxWords maxSizeBytes schema h' c' err :
  (∀ ft, isInitialized (clean ft) = false) →
  initFTWithMap h c data maxWords maxSizeBytes schema = Some (h', c', Some err) →
  initialized c' = false ∧ Cache.data c' = Cache.data c.
Proof.
  intros Hclean. unfold initFTWithMap. simpl.
  destruct (merge_keys _ _ _ _) as [[tbl [e1|]]|]; [|  |discriminate].
  { by intros [= <- <- <-]. }
  destruct (loadCacheData _ _ _ _) as [[h2 ft2] [e2|]]; [|discriminate].
  intros [= <- <- <-]. unfold initialized. simpl. by rewrite Hclean.
Qed.

Lemma cache_run_already op h c maxWords maxSizeBytes schema :
  initialized c = true →
  run op h c maxWords maxSizeBytes schema = Some (h, c, Some already).
Proof.
  intros Hi. destruct op; simpl;
    unfold InitFT, InitFTWithMap, InitFTWithJson; by rewrite Hi.
Qed.

Lemma cache_run_failure op h c maxWords maxSizeBytes schema h' c' err :
  (∀ ft, isInitialized (clean ft) = false) →
  run op h c maxWords maxSizeBytes schema = Some (h', c', Some err) →
  initialized c' = initialized c ∧ Cache.data c' = Cache.data c.
Proof.
  intros Hclean Hr. destruct op; simpl in Hr.
  - unfold InitFT in Hr. destruct (initialized c) eqn:Hc; [by injection Hr as <- <-|].
    unfold initFT in Hr.
    destruct (loadCacheData _ _ _ _) as [[h2 ft2] [e2|]]; [|discriminate].
    injection Hr as <- <- <-. unfold initialized. simpl. by rewrite Hclean.
  - unfold InitFTWithMap in Hr.
    destruct (initialized c) eqn:Hc; [by injection Hr as <- <-|].
    by apply initFTWithMap_failure in Hr.
  - unfold InitFTWithJson in Hr.
    destruct (initialized c) eqn:Hc; [by injection Hr as <- <-|].
    unfold initFTWithJson in Hr.
    destruct (readJson file) as [e1|content]; [injection Hr as <- <- <-; by rewrite Hc|].
    destruct (alloc_json h content) as [data h1].
    by apply initFTWithMap_failure in Hr.
Qed.

Lemma InitFT_success h c maxWords maxSizeBytes schema h' c' :
  InitFT h c maxWords maxSizeBytes schema = Some (h', c', None) →
  initialized c = false ∧ initialized c' = true.
Proof.
  unfold InitFT. destruct (initialized c) eqn:Hc; [discriminate|].
  unfold initFT. destruct (loadCacheData _ _ _ _) as [[h2 ft2] [e2|]]; [discriminate|].
  by intros [= <- <-].
Qed.

End Cache.

End InitTheory.

(** * The claims about the FT-init operations *)
Section InitClaims.
Import Go Store.

Lemma InitFTWithJson_collides `{!Cache.Helpers, !MapOrder}
    h c file content maxWords maxSizeBytes schema k :
  Cache.initialized c = false →
  live h (Cache.data c) →
  Cache.readJson file = inr content →
  is_Some (content !! k) →
  is_Some (deref (tables h) (Cache.data c) !! k) →
  ∃ h' c' k',
    Cache.InitFTWithJson h c file maxWords maxSizeBytes schema
      = Some (h', c', Some (key_exists k'))
    ∧ Cache.initialized c' = false
    ∧ is_Some (content !! k')
    ∧ is_Some (deref (tables h) (Cache.data c) !! k').
Proof.
  intros Hc Hlive Hread Hk Hs. unfold Cache.InitFTWithJson, Cache.initFTWithJson.
  rewrite Hc, Hread. destruct (alloc_json h content) as [data h1] eqn:Ha.
  apply alloc_json_spec in Ha as [Hfr Hkeys].
  destruct (initFTWithMap_collides h1 c data maxWords maxSizeBytes schema k)
    as (h' & c' & k' & -> & Hi & _ & Hd' & Hs'); [by apply Hkeys|by rewrite Hfr|].
  exists h', c', k'. split; [done|]. split; [done|].
  split; [by apply Hkeys|by rewrite <- Hfr].
Qed.

(** C1 (amended).  When an FT-init operation returns an error, the cache is
    initialised or not as it was before the call and keeps its store: in
    the init file of package hermes the cache struct is unchanged and its
    table maps the same keys to the same record objects; in ft_init.go the
    cache keeps its table and, [clean] leaving [isInitialized] false, is
    as initialised as before.  Nothing is said of the caller's map nor of
    the field values of the records. *)
Theorem failed_init_keeps_cache :
  (∀ (H : Hermes.Helpers) (O : MapOrder) op h c maxSize maxBytes minWordLength h' c' err,
     Hermes.run op h c maxSize maxBytes minWordLength = Some (h', c', Some err) →
     live h (Hermes.data c) →
     c' = c
     ∧ deref (tables h') (Hermes.data c) = deref (tables h) (Hermes.data c))
  ∧ (∀ (H : Cache.Helpers) (O : MapOrder) op h c maxWords maxSizeBytes schema h' c' err,
       (∀ ft, Cache.isInitialized (Cache.clean ft) = false) →
       Cache.run op h c maxWords maxSizeBytes schema = Some (h', c', Some err) →
       Cache.initialized c' = Cache.initialized c
       ∧ Cache.data c' = Cache.data c).
Proof.
  split.
  - intros H O op h c maxSize maxBytes minWordLength h' c' err Hr Hlive.
    eapply run_failure; eassumption.
  - intros H O op h c maxWords maxSizeBytes schema h' c' err Hclean Hr.
    eapply cache_run_failure; eassumption.
Qed.

(** C8.  On a cache that is not initialised, FTInitWithMap fails with the
    key-collision error when a key of the incoming map is a key of the
    store, and so does the variant that reads the map from a file; the
    cache is not initialised afterwards.  The same holds in ft_init.go. *)
Theorem init_with_map_collision :
  (∀ (H : Hermes.Helpers) (O : MapOrder) h c data maxSize maxBytes minWordLength k,
     Hermes.ft c = None →
     is_Some (deref (tables h) data !! k) →
     is_Some (deref (tables h) (Hermes.data c) !! k) →
     ∃ h' k',
       Hermes.FTInitWithMap h c data maxSize maxBytes minWordLength
         = Some (h', c, Some (key_exists k'))
       ∧ Hermes.initialized c = false
       ∧ is_Some (deref (tables h) data !! k')
       ∧ is_Some (deref (tables h) (Hermes.data c) !! k'))
  ∧ (∀ (H : Hermes.Helpers) (O : MapOrder) h c file content maxSize maxBytes minWordLength k,
       Hermes.ft c = None →
       live h (Hermes.data c) →
       Hermes.ReadJson file = inr content →
       is_Some (content !! k) →
       is_Some (deref (tables h) (Hermes.data c) !! k) →
       ∃ h' k',
         Hermes.FTInitWithJson h c file maxSize maxBytes minWordLength
           = Some (h', c, Some (key_exists k'))
         ∧ Hermes.initialized c = false
         ∧ is_Some (content !! k')
         ∧ is_Some (deref (tables h) (Hermes.data c) !! k'))
  ∧ (∀ (H : Cache.Helpers) (O : MapOrder) h c data maxWords maxSizeBytes schema k,
       Cache.initialized c = false →
       is_Some (deref (tables h) data !! k) →
       is_Some (deref (tables h) (Cache.data c) !! k) →
       ∃ h' c' k',
         Cache.InitFTWithMap h c data maxWords maxSizeBytes schema
           = Some (h', c', Some (key_exists k'))
         ∧ Cache.initialized c' = false
         ∧ is_Some (deref (tables h) data !! k')
         ∧ is_Some (deref (tables h) (Cache.data c) !! k'))
  ∧ (∀ (H : Cache.Helpers) (O : MapOrder) h c file content maxWords maxSizeBytes schema k,
       Cache.initialized c = false →
       live h (Cache.data c) →
       Cache.readJson file = inr content →
       is_Some (content !! k) →
       is_Some (deref (tables h) (Cache.data c) !! k) →
       ∃ h' c' k',
         Cache.InitFTWithJson h c file maxWords maxSizeBytes schema
           = Some (h', c', Some (key_exists k'))
         ∧ Cache.initialized c' = false
         ∧ is_Some (content !! k')
         ∧ is_Some (deref (tables h) (Cache.data c) !! k')).
Proof.
  split; [|split; [|split]].
  - intros H O h c data maxSize maxBytes minWordLength k Hft Hd Hs.
    destruct (ftInitWithMap_collides h c data maxSize maxBytes minWordLength k Hd Hs)
      as (h' & k' & Hr & Hd' & Hs').
    exists h', k'. unfold Hermes.FTInitWithMap, Hermes.initialized.
    rewrite Hft. split; [done|]. split; [|done].
    apply bool_decide_eq_false. by intros [? ?].
  - intros H O h c file content maxSize maxBytes minWordLength k Hft Hl Hread Hk Hs.
    destruct (FTInitWithJson_collides h c file content maxSize maxBytes minWordLength k
                Hft Hl Hread Hk Hs) as (h' & k' & Hr & Hd' & Hs').
    exists h', k'. split; [done|]. split; [|done].
    unfold Hermes.initialized. rewrite Hft. apply bool_decide_eq_false. by intros [? ?].
  - intros H O h c data maxWords maxSizeBytes schema k Hc Hd Hs.
    destruct (initFTWithMap_collides h c data maxWords maxSizeBytes schema k Hd Hs)
      as (h' & c' & k' & Hr & Hi & _ & Hd' & Hs').
    exists h', c', k'. unfold Cache.InitFTWithMap. rewrite Hc. done.
  - intros H O h c file content maxWords maxSizeBytes schema k.
    apply InitFTWithJson_collides.
Qed.

(** C9.  An FT-init operation on a cache that is initialised returns the
    already-initialised error and leaves the heap and the cache as they
    are; an FTInit that returns no error takes a cache that is not
    initialised to one that is.  In both init files. *)
Theorem init_twice_fails :
  (∀ (H : Hermes.Helpers) (O : MapOrder) op h c maxSize maxBytes minWordLength,
     Hermes.initialized c = true →
     Hermes.run op h c maxSize maxBytes minWordLength
       = Some (h, c, Some (Hermes.already op)))
  ∧ (∀ (H : Hermes.Helpers) (O : MapOrder) h c maxSize maxBytes minWordLength h' c',
       Hermes.FTInit h c maxSize maxBytes minWordLength = Some (h', c', None) →
       Hermes.initialized c = false ∧ Hermes.initialized c' = true)
  ∧ (∀ (H : Cache.Helpers) (O : MapOrder) op h c maxWords maxSizeBytes schema,
       Cache.initialized c = true →
       Cache.run op h c maxWords maxSizeBytes schema = Some (h, c, Some Cache.already))
  ∧ (∀ (H : Cache.Helpers) (O : MapOrder) h c maxWords maxSizeBytes schema h' c',
       Cache.InitFT h c maxWords maxSizeBytes schema = Some (h', c', None) →
       Cache.initialized c = false ∧ Cache.initialized c' = true).
Proof.
  split; [|split; [|split]].
  - intros H O. apply run_already.
  - intros H O. apply FTInit_success.
  - intros H O. apply cache_run_already.
  - intros H O. apply InitFT_success.
Qed.

(** C10.  FTInitWithMap works on the caller's map itself.  Whatever the
    outcome, the map keeps its entries and gains entries of the store
    only (those copied before a collision ended the loop).  When no error
    is returned, the map holds all the entries of the store, it is the
    table of the cache from then on, and each record object has had every
    field with a non-empty extraction replaced by the extracted string,
    once for each key that refers to the object. *)
Theorem init_with_map_mutates_data `{!Hermes.Helpers, !MapOrder}
    h c data maxSize maxBytes minWordLength h' c' e :
  Hermes.FTInitWithMap h c data maxSize maxBytes minWordLength = Some (h', c', e) →
  deref (tables h) data ⊆ deref (tables h') data
  ∧ deref (tables h') data ⊆ deref (tables h) data ∪ deref (tables h) (Hermes.data c)
  ∧ match e with
    | Some _ => c' = c
    | None =>
        Hermes.data c' = data
        ∧ Hermes.initialized c' = true
        ∧ deref (tables h') data
          = deref (tables h) data ∪ deref (tables h) (Hermes.data c)
        ∧ ∀ l, records h' !! l
               = Nat.iter (refs_to (deref (tables h') data) l) (fmap Hermes.extracted)
                   <$> records h !! l
    end.
Proof.
  unfold Hermes.FTInitWithMap. destruct (Hermes.ft c) as [ft0|].
  - intros [= <- <- <-]. split; [done|]. split; [apply map_union_subseteq_l|done].
  - intros Hr. apply ftInitWithMap_spec in Hr as (_ & Hle & Hge & He).
    split; [done|]. split; [done|]. destruct e as [err|]; [done|].
    destruct He as (? & Hft & ? & ?). split; [done|]. split; [|done].
    by apply bool_decide_eq_true.
Qed.

End InitClaims.

(** * The claims on concrete states *)
Section Instances.
Import Go Store Examples.
#[local] Existing Instances order helpers cache_helpers.

(** [strings.Split] keeps the empty piece between two spaces, and
    [strings.TrimSpace] strips the UTF-8 no-break space. *)
Example Split_two_spaces : Split "red  car" = ["red"; ""; "car"]%string.
Proof. reflexivity. Qed.

Example Split_empty : Split "" = [""%string].
Proof. reflexivity. Qed.

Example TrimSpace_no_break_space :
  TrimSpace (String (ascii_of_N 194) (String (ascii_of_N 160) " red car  "))
  = "red car"%string.
Proof. vm_compute. reflexivity. Qed.

Lemma shop_wf : FTS.wf shop.
Proof. apply (bool_decide_unpack _). vm_compute. exact I. Defined.

(** C2: the two-word query "red car" on the shop. *)
Lemma multiword_search_members_witness :
  ∃ result,
    FTS._SearchWithSpaces Model.contains shop_heap shop "red car" 10 false by_name
      = Some (result, [])
    ∧ ∀ r, r ∈ result ↔
        (∃ w found ix, w ∈ Split (TrimSpace "red car")
                       ∧ FTS._Search Model.contains shop w 10 false = Some (found, ix)
                       ∧ r ∈ found)
        ∧ FTS.has_match (λ value, Model.contains value "red car") by_name shop_heap r.
Proof.
  assert (Hl : (1 < length (Split (TrimSpace "red car")))%nat) by (vm_compute; lia).
  exact (multiword_search_members Model.contains shop_heap shop "red car" 10 false
           by_name shop_wf Hl).
Defined.

(** C2 as stated fails: record 2, "car red", is found for "red" and for
    "car", and the search for "red car" does not return it. *)
Lemma multiword_search_not_conjunction :
  ∃ result,
    FTS._SearchWithSpaces Model.contains shop_heap shop "red car" 10 false by_name
      = Some (result, [])
    ∧ Split (TrimSpace "red car") = ["red"; "car"]%string
    ∧ (∀ t, t ∈ ["red"; "car"]%string →
         ∃ found ix, FTS._Search Model.contains shop t 10 false = Some (found, ix)
                     ∧ Some 3%positive ∈ found)
    ∧ Some 3%positive ∉ result.
Proof.
  eexists. split; [vm_compute; reflexivity|]. split; [vm_compute; reflexivity|]. split.
  - intros t Ht.
    apply elem_of_cons in Ht as [->|Ht]; [|apply list_elem_of_singleton in Ht as ->].
    + eexists _, _. split; [vm_compute; reflexivity|]. set_solver.
    + eexists _, _. split; [vm_compute; reflexivity|]. set_solver.
  - set_solver.
Qed.

(** C3: a search of the shop with the limit 1. *)
Lemma nonstrict_search_limit_witness :
  ∃ result ix,
    FTS._Search Model.contains shop "red" 1 false = Some (result, ix)
    ∧ ((1 ≤ 0)%Z → result = [])
    ∧ ((0 < 1)%Z → (len result < 1 + FTS.longest_posting shop)%Z).
Proof. exact (nonstrict_search_limit Model.contains shop "red" 1 shop_wf). Defined.

(** C3 as stated fails: with the limit 1 the search for "red" returns three
    records, and with the limit 0 none of the three. *)
Lemma nonstrict_search_exceeds_limit :
  (∃ result ix,
     FTS._Search Model.contains shop "red" 1 false = Some (result, ix)
     ∧ (1 < len result)%Z)
  ∧ (∃ ix, FTS._Search Model.contains shop "red" 0 false = Some ([], ix))
  ∧ (∃ result ix,
       FTS._Search Model.contains shop "red" 10 false = Some (result, ix)
       ∧ len result = 3%Z).
Proof.
  split; [|split].
  - eexists _, _. split; [vm_compute; reflexivity|]. vm_compute. reflexivity.
  - eexists. vm_compute. reflexivity.
  - eexists _, _. split; [vm_compute; reflexivity|]. vm_compute. reflexivity.
Qed.

(** C4: the strict search of the shop for "red". *)
Lemma strict_search_posting_witness :
  ∃ result ix,
    FTS._Search Model.contains shop "red" 1 true = Some (result, ix)
    ∧ Forall2 (λ r i, Go.index (FTS.json shop) i = Some r)
              result (default [] (FTS.cache shop !! "red"%string))
    ∧ length result = length (default [] (FTS.cache shop !! "red"%string)).
Proof.
  assert (Hq : "red"%string ≠ EmptyString) by discriminate.
  exact (strict_search_posting Model.contains shop "red" 1 shop_wf Hq).
Defined.

(** C4 as stated fails: with the limit 1 the strict search returns the three
    records of the posting. *)
Lemma strict_search_not_truncated :
  ∃ result ix,
    FTS._Search Model.contains shop "red" 1 true = Some (result, ix)
    ∧ (1 < len result)%Z.
Proof. eexists _, _. split; [vm_compute; reflexivity|]. vm_compute. reflexivity. Qed.

(** C5: the search for "red car" returns record 0 twice, once for each
    word. *)
Theorem multiword_search_repeats_record :
  ∃ result,
    FTS._SearchWithSpaces Model.contains shop_heap shop "red car" 10 false by_name
      = Some (result, [])
    ∧ result = [Some 1%positive; Some 1%positive]
    ∧ ¬ NoDup result.
Proof.
  eexists. split; [vm_compute; reflexivity|]. split; [reflexivity|].
  intros Hnd. apply NoDup_cons in Hnd as [Hin _]. apply Hin. by left.
Qed.

(** C6 as stated fails: with the limit 1 both functions return the three
    records that match. *)
Lemma json_search_exceeds_limit :
  (1 < len (FTS._SearchInJson Model.contains_ignore_case shop_heap shop "RED" 1 by_name))%Z
  ∧ (1 < len (FTS._SearchInJsonWithKey Model.contains_ignore_case shop_heap shop
                "RED" "name" 1))%Z.
Proof. split; vm_compute; reflexivity. Qed.

(** C7: a write to the record found for "bike". *)
Lemma search_results_alias_witness :
  ∃ h' i,
    Go.store shop_heap (Some 2%positive) "name" "sold"%string = Some h'
    ∧ FTS.json shop !! i = Some (Some 2%positive)
    ∧ FTS.contents h' shop !! i
      = Some (<["name"%string := "sold"%string]> (deref shop_heap (Some 2%positive)))
    ∧ deref h' (Some 2%positive) !! "name"%string = Some "sold"%string.
Proof.
  assert (Hs : FTS._Search Model.contains shop "bike" 10 false
               = Some ([Some 2%positive], [0; -1; 0]%Z)) by (vm_compute; reflexivity).
  assert (Hin : Some 2%positive ∈ [Some 2%positive]) by (by left).
  assert (Hst : ∃ h', Go.store shop_heap (Some 2%positive) "name" "sold"%string = Some h')
    by (eexists; vm_compute; reflexivity).
  destruct Hst as [h' Hst].
  destruct (search_results_alias Model.contains shop_heap h' shop "bike" 10 false
              _ _ _ "name" "sold"%string Hs Hin Hst) as (i & H1 & H2 & H3).
  exists h', i. auto.
Defined.

(** C7 as stated fails: after the write to the record the search returned,
    the store holds another record at position 1. *)
Lemma search_result_write_changes_store :
  ∃ found ix h',
    FTS._Search Model.contains shop "bike" 10 false = Some (found, ix)
    ∧ found = [Some 2%positive]
    ∧ Go.store shop_heap (Some 2%positive) "name" "sold"%string = Some h'
    ∧ FTS.contents shop_heap shop !! 1%nat
      = Some ({[ "name"%string := "red bike"%string ]} : gmap string string)
    ∧ FTS.contents h' shop !! 1%nat
      = Some ({[ "name"%string := "sold"%string ]} : gmap string string).
Proof.
  eexists _, _, _. split; [vm_compute; reflexivity|]. split; [reflexivity|].
  split; [vm_compute; reflexivity|]. split; vm_compute; reflexivity.
Qed.

(** C1: an FTInitWithMap that fails on the key "b", and an InitFT that
    fails on the cap of one word. *)
Lemma failed_init_keeps_cache_witness :
  (∃ h' c' err,
     Hermes.run (Hermes.CallFTInitWithMap (Some 2%positive))
       depot fresh_cache (-1) (-1) 0 = Some (h', c', Some err)
     ∧ c' = fresh_cache
     ∧ deref (tables h') (Hermes.data fresh_cache)
       = deref (tables depot) (Hermes.data fresh_cache))
  ∧ (∃ h' c' err,
       Cache.run Cache.CallInitFT depot fresh_cache1 1 (-1) by_name
         = Some (h', c', Some err)
       ∧ Cache.initialized c' = Cache.initialized fresh_cache1
       ∧ Cache.data c' = Cache.data fresh_cache1).
Proof.
  split.
  - assert (Hr : ∃ h' c' err,
      Hermes.run (Hermes.CallFTInitWithMap (Some 2%positive))
        depot fresh_cache (-1) (-1) 0 = Some (h', c', Some err))
      by (eexists _, _, _; vm_compute; reflexivity).
    destruct Hr as (h' & c' & err & Hr).
    assert (Hl : live depot (Hermes.data fresh_cache))
      by (apply (bool_decide_unpack _); vm_compute; exact I).
    exists h', c', err. split; [exact Hr|].
    exact (proj1 failed_init_keeps_cache helpers order _ _ _ _ _ _ _ _ _ Hr Hl).
  - assert (Hr : ∃ h' c' err,
      Cache.run Cache.CallInitFT depot fresh_cache1 1 (-1) by_name
        = Some (h', c', Some err))
      by (eexists _, _, _; vm_compute; reflexivity).
    destruct Hr as (h' & c' & err & Hr).
    assert (Hclean : ∀ ft, Cache.isInitialized (Cache.clean ft) = false)
      by (intros ft; reflexivity).
    exists h', c', err. split; [exact Hr|].
    exact (proj2 failed_init_keeps_cache cache_helpers order _ _ _ _ _ _ _ _ _
             Hclean Hr).
Defined.

(** C1 as stated fails: the FTInitWithMap that fails on the key "b" has put
    the record "a" of the store in the caller's map; and the FTInit that
    fails on the cap of one word has replaced the field of a record of the
    store by its extracted string. *)
Lemma failed_init_leaves_changes :
  (∃ h' c',
     Hermes.FTInitWithMap depot fresh_cache (Some 2%positive) (-1) (-1) 0
       = Some (h', c', Some (key_exists "b"))
     ∧ deref (tables depot) (Some 2%positive) !! "a"%string = None
     ∧ deref (tables h') (Some 2%positive) !! "a"%string = Some (Some 11%positive))
  ∧ (∃ h' c',
       Hermes.FTInit depot fresh_cache 1 (-1) 0
         = Some (h', c', Some "cap exceeded: words"%string)
       ∧ deref (records depot) (Some 11%positive) !! "name"%string
         = Some (VList [VStr "red"; VStr "car"])
       ∧ deref (records h') (Some 11%positive) !! "name"%string
         = Some (VStr "red car")).
Proof.
  split; eexists _, _; (split; [vm_compute; reflexivity|]);
    split; vm_compute; reflexivity.
Qed.

(** C8: the key "b" of the caller's map, and of the snapshot file, is a key
    of the store. *)
Lemma init_with_map_collision_witness :
  (∃ h' k',
     Hermes.FTInitWithMap depot fresh_cache (Some 2%positive) (-1) (-1) 0
       = Some (h', fresh_cache, Some (key_exists k'))
     ∧ Hermes.initialized fresh_cache = false
     ∧ is_Some (deref (tables depot) (Some 2%positive) !! k')
     ∧ is_Some (deref (tables depot) (Hermes.data fresh_cache) !! k'))
  ∧ (∃ content h' k',
       Hermes.ReadJson "snap.json" = inr content
       ∧ Hermes.FTInitWithJson depot fresh_cache "snap.json" (-1) (-1) 0
         = Some (h', fresh_cache, Some (key_exists k'))
       ∧ Hermes.initialized fresh_cache = false
       ∧ is_Some (content !! k')
       ∧ is_Some (deref (tables depot) (Hermes.data fresh_cache) !! k'))
  ∧ (∃ h' c' k',
       Cache.InitFTWithMap depot fresh_cache1 (Some 2%positive) (-1) (-1) by_name
         = Some (h', c', Some (key_exists k'))
       ∧ Cache.initialized c' = false
       ∧ is_Some (deref (tables depot) (Some 2%positive) !! k')
       ∧ is_Some (deref (tables depot) (Cache.data fresh_cache1) !! k')).
Proof.
  assert (Hd : is_Some (deref (tables depot) (Some 2%positive) !! "b"%string))
    by (vm_compute; eexists; reflexivity).
  assert (Hs : is_Some (deref (tables depot) (Some 1%positive) !! "b"%string))
    by (vm_compute; eexists; reflexivity).
  assert (Hl : live depot (Some 1%positive))
    by (apply (bool_decide_unpack _); vm_compute; exact I).
  split; [|split].
  - exact (proj1 init_with_map_collision helpers order depot fresh_cache
             (Some 2%positive) (-1)%Z (-1)%Z 0%Z "b"%string eq_refl Hd Hs).
  - assert (Hread : ∃ content, Hermes.ReadJson "snap.json" = inr content
                               ∧ is_Some (content !! "b"%string))
      by (eexists; split; [vm_compute; reflexivity|vm_compute; eexists; reflexivity]).
    destruct Hread as (content & Hread & Hk). exists content.
    destruct (proj1 (proj2 init_with_map_collision) helpers order depot fresh_cache
                "snap.json"%string content (-1)%Z (-1)%Z 0%Z "b"%string
                eq_refl Hl Hread Hk Hs) as (h' & k' & H1 & H2 & H3 & H4).
    exists h', k'. auto.
  - exact (proj1 (proj2 (proj2 init_with_map_collision)) cache_helpers order depot
             fresh_cache1 (Some 2%positive) (-1)%Z (-1)%Z by_name "b"%string
             eq_refl Hd Hs).
Defined.

(** C9: an FTInit on a cache that is initialised, and one on a cache that
    is not; the same with InitFT. *)
Lemma init_twice_fails_witness :
  Hermes.run Hermes.CallFTInit depot ready_cache (-1) (-1) 0
  = Some (depot, ready_cache, Some (Hermes.already Hermes.CallFTInit))
  ∧ (∃ h' c',
       Hermes.FTInit depot fresh_cache (-1) (-1) 0 = Some (h', c', None)
       ∧ Hermes.initialized fresh_cache = false ∧ Hermes.initialized c' = true)
  ∧ Cache.run Cache.CallInitFT depot ready_cache1 (-1) (-1) by_name
    = Some (depot, ready_cache1, Some Cache.already)
  ∧ (∃ h' c',
       Cache.InitFT depot fresh_cache1 (-1) (-1) by_name = Some (h', c', None)
       ∧ Cache.initialized fresh_cache1 = false ∧ Cache.initialized c' = true).
Proof.
  split; [|split; [|split]].
  - exact (proj1 init_twice_fails helpers order Hermes.CallFTInit depot ready_cache
             (-1)%Z (-1)%Z 0%Z eq_refl).
  - assert (Hr : ∃ h' c',
      Hermes.FTInit depot fresh_cache (-1) (-1) 0 = Some (h', c', None))
      by (eexists _, _; vm_compute; reflexivity).
    destruct Hr as (h' & c' & Hr). exists h', c'. split; [exact Hr|].
    exact (proj1 (proj2 init_twice_fails) helpers order _ _ _ _ _ _ _ Hr).
  - exact (proj1 (proj2 (proj2 init_twice_fails)) cache_helpers order
             Cache.CallInitFT depot ready_cache1 (-1)%Z (-1)%Z by_name eq_refl).
  - assert (Hr : ∃ h' c',
      Cache.InitFT depot fresh_cache1 (-1) (-1) by_name = Some (h', c', None))
      by (eexists _, _; vm_compute; reflexivity).
    destruct Hr as (h' & c' & Hr). exists h', c'. split; [exact Hr|].
    exact (proj2 (proj2 (proj2 init_twice_fails)) cache_helpers order _ _ _ _ _ _ _ Hr).
Defined.

(** C10: an FTInitWithMap that succeeds, on the caller's map at location 3. *)
Lemma init_with_map_mutates_data_witness :
  ∃ h' c',
    Hermes.FTInitWithMap depot fresh_cache (Some 3%positive) (-1) (-1) 0
      = Some (h', c', None)
    ∧ deref (tables depot) (Some 3%positive) ⊆ deref (tables h') (Some 3%positive)
    ∧ Hermes.data c' = Some 3%positive
    ∧ Hermes.initialized c' = true
    ∧ deref (tables h') (Some 3%positive)
      = deref (tables depot) (Some 3%positive)
        ∪ deref (tables depot) (Hermes.data fresh_cache)
    ∧ ∀ l, records h' !! l
           = Nat.iter (refs_to (deref (tables h') (Some 3%positive)) l)
               (fmap (@Hermes.extracted helpers))
               <$> records depot !! l.
Proof.
  assert (Hr : ∃ h' c',
    Hermes.FTInitWithMap depot fresh_cache (Some 3%positive) (-1) (-1) 0
      = Some (h', c', None)) by (eexists _, _; vm_compute; reflexivity).
  destruct Hr as (h' & c' & Hr).
  destruct (@init_with_map_mutates_data helpers order _ _ _ _ _ _ _ _ _ Hr)
    as (H1 & _ & H2 & H3 & H4 & H5).
  exists h', c'. auto 10.
Defined.

End Instances.

(** * More on the search file *)
Section SearchMore.
Import Go FTS.
Context (_Contains _ContainsIgnoreCase : string → string → bool).

Lemma index_None {A} (s : list A) (i : Z) :
  ¬ (0 ≤ i < len s)%Z → Go.index s i = None.
Proof.
  unfold Go.index, len. intros Hn. destruct (Z.ltb_spec i 0); [done|].
  apply lookup_ge_None. lia.
Qed.

Lemma strict_posting_total fts posting result :
  is_Some (strict_posting fts posting result) ↔ Forall (in_range fts) posting.
Proof.
  revert result. induction posting as [|i posting IH]; intros result; simpl.
  - split; [constructor|by eexists].
  - rewrite Forall_cons. destruct (decide (in_range fts i)) as [Hi|Hi].
    + destruct (index_is_Some (json fts) i Hi) as [r ->]. rewrite IH. tauto.
    + rewrite (index_None _ _ Hi). split; [by intros [? ?]|tauto].
Qed.

(** X3.  The strict search of a query that has a posting panics exactly when the
    posting holds an index that is not a position of [json]. *)
Theorem strict_search_panics fts query limit posting :
  query ≠ EmptyString →
  cache fts !! query = Some posting →
  _Search _Contains fts query limit true = None
  ↔ ¬ Forall (in_range fts) posting.
Proof.
  intros Hq Hp. unfold _Search.
  destruct (slen query =? 0)%Z eqn:Hz; [by apply slen_zero in Hz|].
  rewrite Hp, <- (strict_posting_total fts posting []).
  destruct (strict_posting fts posting []) as [res|] eqn:Hs.
  - split; [done|]. intros Hn. destruct Hn. by exists res.
  - split; [|done]. intros _ [? ?]. done.
Qed.

(** X2.  On an index whose postings hold positions of [json] only, neither
    search panics, whatever the query, the limit and the mode. *)
Theorem search_never_panics h fts query limit strict keys :
  wf fts →
  is_Some (_Search _Contains fts query limit strict)
  ∧ is_Some (_SearchWithSpaces _Contains h fts query limit strict keys).
Proof.
  intros Hwf. split; [by apply Search_total|].
  unfold _SearchWithSpaces.
  destruct (Split (TrimSpace query)) as [|w1 [|w2 ws]]; [by eexists| |].
  - by apply Search_total.
  - destruct (search_words_total _Contains h fts query limit strict keys
                (w1 :: w2 :: ws) [] Hwf) as [res ->]. by eexists.
Qed.

(** ** What the loops of the non-strict search keep *)

Lemma count_marks_insert (l : list Z) (n : nat) (z : Z) :
  l !! n = Some z → z ≠ (-1)%Z →
  count_marks (<[n := (-1)%Z]> l) = S (count_marks l).
Proof.
  unfold count_marks. revert n. induction l as [|x l IH]; intros [|n]; simpl; try done.
  - intros [= ->] Hz. rewrite !filter_cons. repeat case_decide; simplify_eq; done.
  - intros Hn Hz. rewrite !filter_cons.
    destruct (decide (x = (-1)%Z)); simpl; by rewrite (IH _ Hn Hz).
Qed.

Lemma count_marks_le (l : list Z) : (count_marks l ≤ length l)%nat.
Proof. apply length_filter. Qed.

Lemma search_posting_tallied fts posting st st' :
  search_posting fts posting st = Some st' →
  tallied fts st →
  tallied fts st'
  ∧ st.1 `prefix_of` st'.1
  ∧ (∀ i, st.2 !! i = Some (-1)%Z → st'.2 !! i = Some (-1)%Z)
  ∧ (∀ i, i ∈ posting → (0 ≤ i)%Z ∧ st'.2 !! Z.to_nat i = Some (-1)%Z)
  ∧ (∀ r, r ∈ st'.1 → r ∈ st.1 ∨ ∃ i, i ∈ posting ∧ Go.index (json fts) i = Some r).
Proof.
  revert st. induction posting as [|i posting IH]; intros [res ind]; simpl.
  - intros [= <-] Ht. split; [done|]. split; [done|]. split; [done|].
    split; [by intros i Hi; apply elem_of_nil in Hi|]. auto.
  - destruct (Go.index ind i) as [seen|] eqn:Hseen; [|discriminate].
    apply index_Some in Hseen as [Hi Hseen].
    destruct (Z.eqb_spec seen (-1)) as [->|Hne].
    { intros Hs Ht. destruct (IH _ Hs Ht) as (Ht' & Hpre & Hkeep & Hall & Hsub).
      split; [done|]. split; [done|]. split; [done|]. split.
      - intros j Hj. apply elem_of_cons in Hj as [->|Hj]; [|by apply Hall].
        split; [done|]. by apply Hkeep.
      - intros r Hr. destruct (Hsub r Hr) as [?|(j & Hj & ?)]; [by left|].
        right. exists j. split; [by right|done]. }
    destruct (Go.index (json fts) i) as [r|] eqn:Hr; [|discriminate].
    destruct (Go.set_index ind i (-1)%Z) as [ind'|] eqn:Hset; [|discriminate].
    intros Hs (Hlen & Hcnt & H01 & Hmark). simpl in *.
    pose proof Hr as Hr'. apply index_Some in Hr' as [_ Hr'].
    unfold Go.set_index in Hset. destruct (i <? 0)%Z; [discriminate|].
    destruct (decide _) as [Hlt|]; [|discriminate]. injection Hset as <-.
    destruct (IH (res ++ [r], <[Z.to_nat i := (-1)%Z]> ind) Hs)
      as (Ht' & Hpre & Hkeep & Hall & Hsub).
    { unfold tallied. simpl. split; [by rewrite length_insert|]. split; [|split].
      - rewrite length_app, (count_marks_insert _ _ _ Hseen Hne). simpl. lia.
      - intros j z. destruct (decide (j = Z.to_nat i)) as [->|Hd].
        + rewrite list_lookup_insert_eq by done. intros [= <-]. by right.
        + rewrite list_lookup_insert_ne by done. apply H01.
      - intros j. destruct (decide (j = Z.to_nat i)) as [->|Hd].
        + intros _. exists r. split; [done|]. apply elem_of_app. right. by left.
        + rewrite list_lookup_insert_ne by done. intros Hj.
          destruct (Hmark j Hj) as (r' & ? & ?). exists r'. split; [done|].
          apply elem_of_app. by left. }
    simpl in *. split; [done|]. split; [|split; [|split]].
    + etrans; [|exact Hpre]. by apply prefix_app_r.
    + intros j Hj. apply Hkeep. destruct (decide (j = Z.to_nat i)) as [->|Hd].
      * by apply list_lookup_insert_eq.
      * by rewrite list_lookup_insert_ne.
    + intros j Hj. apply elem_of_cons in Hj as [->|Hj]; [|by apply Hall].
      split; [done|]. apply Hkeep. by apply list_lookup_insert_eq.
    + intros r' Hr'0. destruct (Hsub r' Hr'0) as [Hin|(j & Hj & ?)].
      * apply elem_of_app in Hin as [?|Hin]; [by left|].
        apply list_elem_of_singleton in Hin as ->. right. exists i.
        split; [by left|done].
      * right. exists j. split; [by right|done].
Qed.

Lemma search_keys_tallied fts query limit ks st st' :
  search_keys _Contains fts query limit ks st = Some st' →
  tallied fts st →
  tallied fts st'
  ∧ st.1 `prefix_of` st'.1
  ∧ (∀ i, st.2 !! i = Some (-1)%Z → st'.2 !! i = Some (-1)%Z)
  ∧ (∀ r, r ∈ st'.1 →
       r ∈ st.1 ∨ ∃ i, hit _Contains fts query ks i ∧ Go.index (json fts) i = Some r)
  ∧ ((len (json fts) < limit)%Z →
     ∀ i, hit _Contains fts query ks i → (0 ≤ i)%Z ∧ st'.2 !! Z.to_nat i = Some (-1)%Z).
Proof.
  revert st. induction ks as [|k ks IH]; intros st; simpl.
  - intros [= <-] Ht. split; [done|]. split; [done|]. split; [done|].
    split; [auto|]. intros _ i (k & Hk & _). by apply elem_of_nil in Hk.
  - destruct (Z.geb_spec (len st.1) limit) as [Hge|Hlt].
    { intros [= <-] Ht. split; [done|]. split; [done|]. split; [done|].
      split; [auto|]. intros Hbig. destruct Ht as (Hlen & Hcnt & _).
      pose proof (count_marks_le st.2). unfold len in *. lia. }
    destruct (_Contains k query) eqn:Hc; simpl.
    + destruct (search_posting fts _ st) as [st1|] eqn:Hp; [|discriminate].
      intros Hs Ht.
      destruct (search_posting_tallied _ _ _ _ Hp Ht)
        as (Ht1 & Hpre1 & Hkeep1 & Hall1 & Hsub1).
      destruct (IH _ Hs Ht1) as (Ht' & Hpre & Hkeep & Hsub & Hall).
      split; [done|]. split; [by etrans|]. split; [by auto|]. split.
      * intros r Hr. destruct (Hsub r Hr) as [Hin|(i & (k' & ? & ? & ?) & ?)].
        -- destruct (Hsub1 r Hin) as [?|(i & ? & ?)]; [by left|].
           right. exists i. split; [|done]. exists k. split; [by left|done].
        -- right. exists i. split; [|done]. exists k'. split; [by right|done].
      * intros Hbig i (k' & Hk' & Hc' & Hi).
        apply elem_of_cons in Hk' as [->|Hk'].
        -- destruct (Hall1 i Hi) as [? ?]. split; [done|]. by apply Hkeep.
        -- apply (Hall Hbig). by exists k'.
    + intros Hs Ht. destruct (IH _ Hs Ht) as (Ht' & Hpre & Hkeep & Hsub & Hall).
      split; [done|]. split; [done|]. split; [done|]. split.
      * intros r Hr. destruct (Hsub r Hr) as [?|(i & (k' & ? & ? & ?) & ?)]; [by left|].
        right. exists i. split; [|done]. exists k'. split; [by right|done].
      * intros Hbig i (k' & Hk' & Hc' & Hi).
        apply elem_of_cons in Hk' as [->|Hk']; [congruence|].
        apply (Hall Hbig). by exists k'.
Qed.

Lemma tallied_start fts :
  tallied fts ([], replicate (length (json fts)) 0%Z).
Proof.
  split; simpl; [apply length_replicate|]. split; [|split].
  - unfold count_marks. induction (length (json fts)) as [|n IH]; [done|].
    simpl. rewrite filter_cons. by rewrite decide_False by done.
  - intros i z Hz. apply lookup_replicate in Hz as [-> _]. by left.
  - intros i Hz. by apply lookup_replicate in Hz as [? _].
Qed.

(** X4.  The second result of a non-strict search has one slot for each record,
    holding 0 or -1; a slot holds -1 only at the position of a returned
    record, and the number of slots that hold -1 is the number of records
    returned. *)
Theorem nonstrict_search_marks fts query limit result ix :
  query ≠ EmptyString →
  _Search _Contains fts query limit false = Some (result, ix) →
  length ix = length (json fts)
  ∧ length result = count_marks ix
  ∧ (∀ i z, ix !! i = Some z → z = 0%Z ∨ z = (-1)%Z)
  ∧ (∀ i, ix !! i = Some (-1)%Z → ∃ r, json fts !! i = Some r ∧ r ∈ result).
Proof.
  intros Hq. unfold _Search.
  destruct (slen query =? 0)%Z eqn:Hz; [by apply slen_zero in Hz|].
  intros Hs. by apply search_keys_tallied in Hs as (Ht & _); [|apply tallied_start].
Qed.

(** X5.  A record returned by a non-strict search sits at a position listed in
    the posting of a word of [keys] that contains the query. *)
Theorem nonstrict_search_sound fts query limit result ix r :
  _Search _Contains fts query limit false = Some (result, ix) →
  r ∈ result →
  ∃ k i, k ∈ keys fts ∧ _Contains k query = true
         ∧ i ∈ default [] (cache fts !! k)
         ∧ Go.index (json fts) i = Some r.
Proof.
  unfold _Search. destruct (slen query =? 0)%Z.
  { intros [= <- <-] Hr. by apply elem_of_nil in Hr. }
  intros Hs Hr.
  apply search_keys_tallied in Hs as (_ & _ & _ & Hsub & _); [|apply tallied_start].
  destruct (Hsub r Hr) as [Hin|(i & (k & ? & ? & ?) & ?)].
  - by apply elem_of_nil in Hin.
  - by exists k, i.
Qed.

(** X6.  With a limit above the number of records the non-strict search misses
    nothing: the record at every position listed in the posting of a word
    of [keys] that contains the query is returned. *)
Theorem nonstrict_search_complete fts query limit result ix k i :
  query ≠ EmptyString →
  (len (json fts) < limit)%Z →
  _Search _Contains fts query limit false = Some (result, ix) →
  k ∈ keys fts →
  _Contains k query = true →
  i ∈ default [] (cache fts !! k) →
  ∃ r, Go.index (json fts) i = Some r ∧ r ∈ result.
Proof.
  intros Hq Hbig. unfold _Search.
  destruct (slen query =? 0)%Z eqn:Hz; [by apply slen_zero in Hz|].
  intros Hs Hk Hc Hi.
  apply search_keys_tallied in Hs as ((_ & _ & _ & Hmark) & _ & _ & _ & Hall);
    [|apply tallied_start].
  destruct (Hall Hbig i) as [H0 Hm]; [by exists k|].
  destruct (Hmark _ Hm) as (r & Hr & Hin). exists r. split; [|done].
  by apply index_Some.
Qed.

Lemma search_keys_limit_mono fts query limit limit' ks st s1 s2 :
  (limit ≤ limit')%Z →
  tallied fts st →
  search_keys _Contains fts query limit ks st = Some s1 →
  search_keys _Contains fts query limit' ks st = Some s2 →
  s1.1 `prefix_of` s2.1.
Proof.
  intros Hle. revert st. induction ks as [|k ks IH]; intros st Ht; simpl.
  - by intros [= <-] [= <-].
  - destruct (Z.geb_spec (len st.1) limit) as [Hge|Hlt].
    { intros [= <-] H2.
      change (search_keys _Contains fts query limit' (k :: ks) st = Some s2) in H2.
      by apply search_keys_tallied in H2 as (_ & ? & _). }
    destruct (Z.geb_spec (len st.1) limit') as [Hge'|Hlt']; [lia|].
    destruct (negb _); [by apply IH|].
    destruct (search_posting fts _ st) as [st1|] eqn:Hp; [|discriminate].
    apply IH. by apply search_posting_tallied in Hp as (? & _).
Qed.

(** X7.  Raising the limit of a non-strict search only appends records: the
    result for a limit is a prefix of the result for any larger limit. *)
Theorem nonstrict_search_limit_prefix fts query limit limit' r1 ix1 r2 ix2 :
  (limit ≤ limit')%Z →
  _Search _Contains fts query limit false = Some (r1, ix1) →
  _Search _Contains fts query limit' false = Some (r2, ix2) →
  r1 `prefix_of` r2.
Proof.
  intros Hle. unfold _Search. destruct (slen query =? 0)%Z.
  { by intros [= <- <-] [= <- <-]. }
  intros H1 H2.
  apply (search_keys_limit_mono _ _ _ _ _ _ _ _ Hle (tallied_start fts) H1 H2).
Qed.

End SearchMore.

(** * The words of a query, and the lists the searches build *)
Section SearchLists.
Import Go FTS.
Context (_Contains _ContainsIgnoreCase : string → string → bool).

Lemma Split_length (s : string) : length (Split s) = S (spaces s).
Proof.
  induction s as [|c s IH]; simpl; [done|].
  destruct (Ascii.eqb c " "); simpl; [by rewrite IH|].
  destruct (Split s) as [|w ws]; simpl in *; [done|]. by rewrite IH.
Qed.

Lemma Split_no_space (s : string) : spaces s = 0%nat → Split s = [s].
Proof.
  induction s as [|c s IH]; simpl; [done|].
  destruct (Ascii.eqb c " "); simpl; [done|]. intros Hs. by rewrite IH.
Qed.

Lemma Split_words_no_space (s : string) :
  Forall (λ w, spaces w = 0%nat) (Split s).
Proof.
  induction s as [|c s IH]; simpl; [by repeat constructor|].
  destruct (Ascii.eqb c " ") eqn:Hc; [by constructor|].
  destruct (Split s) as [|w ws]; simpl.
  - repeat constructor. simpl. by rewrite Hc.
  - apply Forall_cons in IH as [Hw Hws]. constructor; [|done]. simpl. by rewrite Hc.
Qed.

(** X8.  The words [_SearchWithSpaces] works with: one more than the trimmed
    query has spaces, none of them with a space in it; so there is always
    a word, and the case [len(words) == 0] of the function never runs. *)
Theorem query_words (query : string) :
  length (Split (TrimSpace query)) = S (spaces (TrimSpace query))
  ∧ Split (TrimSpace query) ≠ []
  ∧ Forall (λ w, spaces w = 0%nat) (Split (TrimSpace query)).
Proof.
  split; [apply Split_length|]. split; [|apply Split_words_no_space].
  intros Hnil. pose proof (Split_length (TrimSpace query)) as Hl.
  by rewrite Hnil in Hl.
Qed.

Lemma SearchWithSpaces_one_word h fts query limit strict keys :
  spaces (TrimSpace query) = 0%nat →
  _SearchWithSpaces _Contains h fts query limit strict keys
  = _Search _Contains fts (TrimSpace query) limit strict.
Proof.
  intros Hs. unfold _SearchWithSpaces. by rewrite (Split_no_space _ Hs).
Qed.

(** X9.  A query that is one word once trimmed is searched as that word: the
    schema [keys] and the contents of the records play no part. *)
Theorem single_word_query h fts query limit strict keys :
  spaces (TrimSpace query) = 0%nat →
  _SearchWithSpaces _Contains h fts query limit strict keys
  = _Search _Contains fts (TrimSpace query) limit strict.
Proof. apply SearchWithSpaces_one_word. Qed.

(** X10.  A query of white space only gives the empty result, on any index. *)
Theorem blank_query h fts query limit strict keys :
  TrimSpace query = EmptyString →
  _SearchWithSpaces _Contains h fts query limit strict keys = Some ([], []).
Proof.
  intros Hq. rewrite SearchWithSpaces_one_word by (by rewrite Hq). by rewrite Hq.
Qed.

Lemma append_matches_eq test keys h r res :
  append_matches test keys h r res = res ++ replicate (matches test keys h r) r.
Proof.
  unfold append_matches, matches. generalize (map_to_list (deref h r)) as l.
  intros l. revert res. induction l as [|kv l IH]; intros res; simpl.
  - by rewrite app_nil_r.
  - rewrite IH, filter_cons.
    destruct (decide (flagged keys kv.1 = true ∧ test kv.2 = true)) as [[Hf Ht]|Hn].
    + rewrite Hf, Ht. simpl. by rewrite <- app_assoc.
    + destruct (flagged keys kv.1) eqn:Hf; simpl; [|done].
      destruct (test kv.2) eqn:Ht; [|done]. by destruct Hn.
Qed.

Lemma filter_records_eq test keys h found res :
  filter_records test keys h found res = res ++ repeat_matches test keys h found.
Proof.
  unfold filter_records, repeat_matches. revert res.
  induction found as [|r found IH]; intros res; simpl.
  - by rewrite app_nil_r.
  - rewrite IH, append_matches_eq. by rewrite <- app_assoc.
Qed.

Lemma search_words_eq h fts query limit strict keys ws res result :
  search_words _Contains h fts query limit strict keys ws res = Some result →
  ∃ founds,
    Forall2 (λ w found, ∃ ix, _Search _Contains fts w limit strict = Some (found, ix))
            ws founds
    ∧ result
      = res ++ concat (repeat_matches (λ value, _Contains value query) keys h <$> founds).
Proof.
  revert res. induction ws as [|w ws IH]; intros res; simpl.
  - intros [= <-]. exists []. split; [constructor|]. by rewrite app_nil_r.
  - unfold Search.
    destruct (_Search _Contains fts w limit strict) as [[found ix]|] eqn:Hs; [|discriminate].
    intros H. destruct (IH _ H) as (founds & Hf & ->).
    exists (found :: founds). split; [constructor; [by exists ix|done]|].
    rewrite filter_records_eq. csimpl. by rewrite <- app_assoc.
Qed.

(** X11.  The result of a search for two or more words, as a list: for each word
    in turn, the records its single-word search finds, in that order,
    each one once for every flagged field that contains the whole query
    (and not at all when there is none). *)
Theorem multiword_search_list h fts query limit strict keys :
  wf fts →
  (1 < length (Split (TrimSpace query)))%nat →
  ∃ founds,
    Forall2 (λ w found, ∃ ix, _Search _Contains fts w limit strict = Some (found, ix))
            (Split (TrimSpace query)) founds
    ∧ _SearchWithSpaces _Contains h fts query limit strict keys
      = Some (concat (repeat_matches (λ value, _Contains value query) keys h <$> founds),
              []).
Proof.
  intros Hwf Hlen. unfold _SearchWithSpaces.
  destruct (Split (TrimSpace query)) as [|w1 [|w2 ws]] eqn:Hw; simpl in Hlen; [lia..|].
  destruct (search_words_total _Contains h fts query limit strict keys
              (w1 :: w2 :: ws) [] Hwf) as [result Hres].
  rewrite Hres. apply search_words_eq in Hres as (founds & Hf & ->).
  by exists founds.
Qed.

Lemma SearchInJson_eq h fts query limit keys :
  _SearchInJson _ContainsIgnoreCase h fts query limit keys
  = repeat_matches (λ value, _ContainsIgnoreCase value query) keys h (json fts).
Proof. unfold _SearchInJson. by rewrite filter_records_eq. Qed.

(** X12.  [_SearchInJson] lists the records in the order of the store, each one
    once for every flagged field that matches. *)
Theorem json_search_list h fts query limit keys :
  _SearchInJson _ContainsIgnoreCase h fts query limit keys
  = repeat_matches (λ value, _ContainsIgnoreCase value query) keys h (json fts).
Proof. apply SearchInJson_eq. Qed.

Lemma matches_one_key test (key : string) h r :
  matches test {[ key := true ]} h r
  = match deref h r !! key with
    | Some value => if test value then 1%nat else 0%nat
    | None => 0%nat
    end.
Proof.
  unfold matches. generalize (deref h r) as m. intros m.
  induction m as [|k v m Hk Hfk IH] using map_first_key_ind.
  - by rewrite map_to_list_empty, filter_nil, lookup_empty.
  - rewrite map_to_list_insert_first_key by done. rewrite filter_cons. simpl.
    unfold flagged in *. destruct (decide (k = key)) as [->|Hne].
    + rewrite lookup_singleton_eq, lookup_insert_eq. rewrite Hk in IH. simpl.
      destruct (test v) eqn:Ht.
      * destruct (decide _) as [Hd|Hd]; [simpl; by rewrite IH|by destruct Hd].
      * destruct (decide _) as [Hd|Hd]; [destruct Hd; congruence|done].
    + rewrite lookup_singleton_ne, lookup_insert_ne by done. done.
Qed.

Lemma SearchInJsonWithKey_filter h fts query key limit :
  _SearchInJsonWithKey _ContainsIgnoreCase h fts query key limit
  = filter (λ r, _ContainsIgnoreCase (default EmptyString (deref h r !! key)) query = true)
           (json fts).
Proof.
  unfold _SearchInJsonWithKey.
  enough (H : ∀ l acc,
    foldl (λ res r, if _ContainsIgnoreCase (default EmptyString (deref h r !! key)) query
                    then res ++ [r] else res) acc l
    = acc ++ filter (λ r, _ContainsIgnoreCase (default EmptyString (deref h r !! key)) query = true) l)
    by apply (H _ []).
  induction l as [|r l IH]; intros acc; simpl.
  - by rewrite app_nil_r.
  - rewrite IH, filter_cons. destruct (_ContainsIgnoreCase _ query) eqn:Ht.
    + rewrite decide_True by done. by rewrite <- app_assoc.
    + rewrite decide_False by congruence. done.
Qed.

(** X13.  With a schema of the one field [key], and a query that the empty string
    does not match, [_SearchInJson] and [_SearchInJsonWithKey] return the
    same list. *)
Theorem json_search_one_key h fts query key limit limit' :
  _ContainsIgnoreCase EmptyString query = false →
  _SearchInJson _ContainsIgnoreCase h fts query limit {[ key := true ]}
  = _SearchInJsonWithKey _ContainsIgnoreCase h fts query key limit'.
Proof.
  intros He. rewrite SearchInJson_eq, SearchInJsonWithKey_filter.
  unfold repeat_matches. induction (json fts) as [|r l IH]; csimpl; [done|].
  rewrite IH, filter_cons, matches_one_key.
  destruct (deref h r !! key) as [value|]; simpl.
  - destruct (_ContainsIgnoreCase value query) eqn:Ht.
    + by rewrite decide_True by done.
    + by rewrite decide_False by congruence.
  - rewrite He. by rewrite decide_False by congruence.
Qed.

End SearchLists.

(** * More on the init file of package hermes *)
Section InitMore.
Import Go Store Hermes.
Context `{!Helpers, !MapOrder}.

Lemma heap_eta (h : heap) : mkHeap (tables h) (records h) = h.
Proof. by destruct h. Qed.

Lemma range_nil_inv {V} (m : gmap string V) : range m = [] → m = ∅.
Proof.
  intros Hr. apply map_to_list_empty_iff. apply Permutation_nil_r.
  by rewrite <- (range_perm V m), Hr.
Qed.

(** The inner loop does not panic when the entry it writes to has its
    object, and an error it returns is one [ts.insert] returned. *)
Lemma insert_fields_total tbl data cacheKey fields recs ts ft l :
  default None (deref tbl data !! cacheKey) = Some l →
  is_Some (recs !! l) →
  ∃ st' e,
    insert_fields tbl data cacheKey fields (recs, ts, ft) = Some (st', e)
    ∧ is_Some (st'.1.1 !! l)
    ∧ ∀ err, e = Some err → raised cacheKey err.
Proof.
  intros Ht. revert recs ts ft. induction fields as [|[k v] rest IH];
    intros recs ts ft Hl; simpl.
  - eexists _, _. split; [done|]. split; [done|]. discriminate.
  - destruct (slen (WFTGetValue v) =? 0)%Z eqn:Hz; [by apply IH|].
    rewrite Ht. unfold store. destruct Hl as [m Hm]. rewrite Hm.
    destruct (ts_insert ts ft cacheKey (WFTGetValue v)) as [[ts1 ft1] [err|]] eqn:Hts.
    + eexists _, _. split; [done|]. simpl. split; [by rewrite lookup_insert_eq|].
      intros ? [= <-]. exists ts, ft, (WFTGetValue v). rewrite Hts. split; [|done].
      intros He. rewrite He in Hz. done.
    + apply IH. by rewrite lookup_insert_eq.
Qed.

Lemma insert_fields_range_total tbl data cacheKey r recs ts ft :
  default None (deref tbl data !! cacheKey) = r →
  ∃ st' e,
    insert_fields tbl data cacheKey (range (deref recs r)) (recs, ts, ft) = Some (st', e)
    ∧ ∀ err, e = Some err → raised cacheKey err.
Proof.
  intros Ht. destruct r as [l|].
  - destruct (recs !! l) as [m|] eqn:Hm.
    + destruct (insert_fields_total tbl data cacheKey (range (deref recs (Some l)))
                  recs ts ft l Ht) as (st' & e & Hi & _ & He); [by eexists|].
      by exists st', e.
    + rewrite range_empty by (simpl; by rewrite Hm).
      eexists _, _. split; [done|]. discriminate.
  - rewrite range_empty by done. eexists _, _. split; [done|]. discriminate.
Qed.

Lemma insert_records_total tbl data entries st :
  (∀ k r, (k, r) ∈ entries → deref tbl data !! k = Some r) →
  ∃ st' e,
    insert_records tbl data entries st = Some (st', e)
    ∧ ∀ err, e = Some err → ∃ k, k ∈ entries.*1 ∧ raised k err.
Proof.
  revert st. induction entries as [|[k r] rest IH]; intros [[recs ts] ft] Hin; csimpl.
  - eexists _, _. split; [done|]. discriminate.
  - destruct (insert_fields_range_total tbl data k r recs ts ft)
      as (st1 & e1 & -> & He1); [by rewrite (Hin k r) by (by left)|].
    destruct e1 as [err|].
    + eexists _, _. split; [done|]. intros ? [= <-]. exists k. split; [by left|].
      by apply He1.
    + destruct (IH st1) as (st' & e & -> & He).
      { intros k' r' Hk'. apply Hin. by right. }
      eexists _, _. split; [done|]. intros err Herr.
      destruct (He err Herr) as (k' & ? & ?). exists k'. split; [by right|done].
Qed.

Lemma insert_total ft h data :
  ∃ h' ft' e,
    insert ft h data = Some (h', ft', e)
    ∧ ∀ err, e = Some err →
        ∃ k, is_Some (deref (tables h) data !! k) ∧ raised k err.
Proof.
  unfold insert.
  destruct (insert_records_total (tables h) data (range (deref (tables h) data))
              (records h, NewTempStorage ft, ft)) as ([[recs ts] ft1] & e & -> & He).
  { intros k r. apply elem_of_range. }
  destruct e as [err|]; eexists _, _, _; (split; [done|]); [|discriminate].
  intros ? [= <-]. destruct (He err eq_refl) as (k & Hk & ?). exists k.
  split; [by apply elem_of_range_keys|done].
Qed.

(** X14.  FTInit never panics, and an error it returns on a cache that is not
    initialised is an error [ts.insert] returned for a key of the store. *)
Theorem FTInit_never_panics h c maxSize maxBytes minWordLength :
  ∃ h' c' e,
    FTInit h c maxSize maxBytes minWordLength = Some (h', c', e)
    ∧ (ft c = None → ∀ err, e = Some err →
         ∃ k, is_Some (deref (tables h) (Hermes.data c) !! k) ∧ raised k err).
Proof.
  unfold FTInit. destruct (ft c) as [ft0|].
  { eexists _, _, _. split; [done|]. done. }
  unfold ftInit.
  destruct (insert_total (mkFullText ∅ ∅ 0 maxSize maxBytes minWordLength) h
              (Hermes.data c)) as (h' & ft' & e & -> & He).
  destruct e as [err|]; eexists _, _, _; (split; [done|]); intros _.
  - intros ? [= <-]. by apply He.
  - discriminate.
Qed.

(** X15.  An FTInit that returns no error leaves the tables and the reference of
    the cache as they are, and has replaced, in every record object of the
    store, each field of a non-empty extraction by the extracted string
    (once for each key that refers to the object). *)
Theorem FTInit_rewrites_records h c maxSize maxBytes minWordLength h' c' :
  FTInit h c maxSize maxBytes minWordLength = Some (h', c', None) →
  tables h' = tables h
  ∧ Hermes.data c' = Hermes.data c
  ∧ ∀ l, records h' !! l
         = Nat.iter (refs_to (deref (tables h) (Hermes.data c)) l) (fmap extracted)
             <$> records h !! l.
Proof.
  unfold FTInit. destruct (ft c); [discriminate|]. unfold ftInit.
  destruct (insert _ _ _) as [[[h2 ft2] [e2|]]|] eqn:Hi; [discriminate| |discriminate].
  intros [= <- <-]. apply insert_spec in Hi as [Ht Hr]. split; [done|].
  split; [done|]. by apply Hr.
Qed.

Lemma insert_fields_plain tbl data cacheKey fields st :
  Forall (λ kv, WFTGetValue kv.2 = EmptyString) fields →
  insert_fields tbl data cacheKey fields st = Some (st, None).
Proof.
  induction 1 as [|[k v] rest Hv _ IH]; simpl; [done|].
  simpl in Hv. by rewrite Hv.
Qed.

Lemma insert_records_plain tbl data entries recs ts ft :
  (∀ l m k v, recs !! l = Some m → m !! k = Some v → WFTGetValue v = EmptyString) →
  insert_records tbl data entries (recs, ts, ft) = Some ((recs, ts, ft), None).
Proof.
  intros Hplain. induction entries as [|[k r] rest IH]; simpl; [done|].
  rewrite insert_fields_plain; [done|].
  apply Forall_forall. intros [k' v] Hin. apply elem_of_range in Hin. simpl.
  destruct r as [l|]; simpl in Hin; [|by rewrite lookup_empty in Hin].
  destruct (recs !! l) as [m|] eqn:Hm; simpl in Hin; [|by rewrite lookup_empty in Hin].
  by eapply Hplain.
Qed.

(** X16.  When no field of any record has an extraction, FTInit on a cache that
    is not initialised succeeds without a call to [ts.insert] and changes
    nothing but [c.ft]. *)
Theorem FTInit_plain_records h c maxSize maxBytes minWordLength :
  ft c = None →
  (∀ l m k v, records h !! l = Some m → m !! k = Some v →
     WFTGetValue v = EmptyString) →
  FTInit h c maxSize maxBytes minWordLength
  = Some (h, mkCache (Hermes.data c)
               (Some (empty_index maxSize maxBytes minWordLength)), None).
Proof.
  intros Hft Hplain. unfold FTInit, ftInit, insert. rewrite Hft.
  rewrite insert_records_plain by done. by rewrite heap_eta.
Qed.

(** X17.  A cache made by InitCache can always be initialised: FTInit succeeds,
    whatever the caps, and the heap is as InitCache left it. *)
Theorem InitCache_then_FTInit h maxSize maxBytes minWordLength :
  FTInit (InitCache h).1 (InitCache h).2 maxSize maxBytes minWordLength
  = Some ((InitCache h).1,
          mkCache (Hermes.data (InitCache h).2)
            (Some (empty_index maxSize maxBytes minWordLength)),
          None).
Proof.
  unfold InitCache, FTInit, ftInit, insert. simpl.
  rewrite lookup_insert_eq. simpl. by rewrite range_empty.
Qed.

Lemma merge_keys_disjoint src data ks tbl l :
  data = Some l →
  is_Some (tbl !! l) →
  NoDup ks →
  (∀ k, k ∈ ks → deref tbl data !! k = None) →
  ∃ tbl', merge_keys src data ks tbl = Some (tbl', None).
Proof.
  intros ->. revert tbl. induction ks as [|k0 rest IH]; intros tbl Hl Hnd Hnone.
  - by eexists.
  - apply NoDup_cons in Hnd as [Hk0 Hnd]. cbn [merge_keys].
    rewrite (Hnone k0) by (by left). destruct Hl as [m Hm].
    destruct (store tbl (Some l) k0 _) as [tbl1|] eqn:Hst;
      [|unfold store in Hst; by rewrite Hm in Hst].
    apply IH.
    + unfold store in Hst. rewrite Hm in Hst. injection Hst as <-.
      by rewrite lookup_insert_eq.
    + done.
    + intros k Hk. rewrite (deref_store _ _ _ _ _ Hst).
      rewrite lookup_insert_ne by (intros ->; done). apply Hnone. by right.
Qed.

(** X18.  FTInitWithMap succeeds when the cache is not initialised, the map is
    not nil, no key of the store is a key of the map, and [ts.insert]
    returns no error. *)
Theorem FTInitWithMap_succeeds h c l maxSize maxBytes minWordLength :
  ft c = None →
  is_Some (tables h !! l) →
  (∀ k, is_Some (deref (tables h) (Hermes.data c) !! k) →
        deref (tables h) (Some l) !! k = None) →
  (∀ ts ft key ftv, (ts_insert ts ft key ftv).2 = None) →
  ∃ h' c', FTInitWithMap h c (Some l) maxSize maxBytes minWordLength
           = Some (h', c', None).
Proof.
  intros Hft Hl Hdis Hok. unfold FTInitWithMap, ftInitWithMap. rewrite Hft.
  destruct (merge_keys_disjoint (Hermes.data c) (Some l)
              (range (deref (tables h) (Hermes.data c))).*1 (tables h) l)
    as [tbl ->]; [done|done|apply NoDup_range_keys| |].
  { intros k Hk. apply Hdis. by apply elem_of_range_keys. }
  destruct (insert_total (mkFullText ∅ ∅ 0 maxSize maxBytes minWordLength)
              (mkHeap tbl (records h)) (Some l)) as (h' & ft' & e & -> & He).
  destruct e as [err|]; [|by eexists _, _].
  destruct (He err eq_refl) as (k & _ & ts & ft0 & ftv & _ & Hr).
  by rewrite Hok in Hr.
Qed.

(** X19.  FTInitWithMap with the nil map, on a cache that is not initialised:
    a panic when the store holds a record (the assignment to an entry of
    the nil map); when the store is empty, success, and the nil map is the
    store from then on. *)
Theorem FTInitWithMap_nil_map h c maxSize maxBytes minWordLength :
  ft c = None →
  (deref (tables h) (Hermes.data c) ≠ ∅ →
   FTInitWithMap h c None maxSize maxBytes minWordLength = None)
  ∧ (deref (tables h) (Hermes.data c) = ∅ →
     FTInitWithMap h c None maxSize maxBytes minWordLength
     = Some (h, mkCache None (Some (empty_index maxSize maxBytes minWordLength)),
             None)).
Proof.
  intros Hft. unfold FTInitWithMap, ftInitWithMap. rewrite Hft. split.
  - intros Hne. destruct (range (deref (tables h) (Hermes.data c))) as [|[k r] rest] eqn:Hr.
    { by apply range_nil_inv in Hr. }
    csimpl. by rewrite lookup_empty.
  - intros He. rewrite range_empty by done. csimpl. unfold insert. simpl.
    rewrite range_empty by done. simpl. by rewrite heap_eta.
Qed.

End InitMore.

(** * More on ft_init.go *)
Section CacheMore.
Import Go Store Cache.
Context `{!Helpers, !MapOrder}.

(** X20.  InitFTWithMap replaces [c.ft] before it looks at the keys: a call that
    fails on a key collision leaves a new, empty, uninitialised FullText
    with the caps of the call, whatever [c.ft] held, and the records as
    they were. *)
Theorem InitFTWithMap_collision_resets_ft h c data maxWords maxSizeBytes schema k :
  initialized c = false →
  is_Some (deref (tables h) data !! k) →
  is_Some (deref (tables h) (Cache.data c) !! k) →
  ∃ h' k',
    InitFTWithMap h c data maxWords maxSizeBytes schema
    = Some (h',
            mkCache (Cache.data c) (Some (mkFullText ∅ maxWords maxSizeBytes false)),
            Some (key_exists k'))
    ∧ records h' = records h.
Proof.
  intros Hc Hd Hs. unfold InitFTWithMap, initFTWithMap. rewrite Hc. simpl.
  destruct (merge_keys_collides (Cache.data c) data
              (range (deref (tables h) (Cache.data c))).*1 (tables h) k)
    as (tbl & err & Hm); [by apply elem_of_range_keys|done|].
  rewrite Hm.
  apply merge_keys_spec in Hm as (_ & copied & _ & _ & _ & k' & -> & _);
    [|apply NoDup_range_keys|by intros ? ?; apply elem_of_range_keys].
  by eexists _, k'.
Qed.

(** X21.  An InitFTWithMap that returns no error has handed [loadCacheData] the
    caller's map holding its own entries and all the entries of the
    store, and has made that map the table of the cache, which is
    initialised. *)
Theorem InitFTWithMap_success h c data maxWords maxSizeBytes schema h' c' :
  InitFTWithMap h c data maxWords maxSizeBytes schema = Some (h', c', None) →
  initialized c = false
  ∧ initialized c' = true
  ∧ Cache.data c' = data
  ∧ ∃ tbl ft,
      loadCacheData (mkFullText ∅ maxWords maxSizeBytes false)
        (mkHeap tbl (records h)) data schema = (h', ft, None)
      ∧ Cache.ft c' = Some (set_initialized ft)
      ∧ deref tbl data = deref (tables h) data ∪ deref (tables h) (Cache.data c)
      ∧ deref tbl (Cache.data c) = deref (tables h) (Cache.data c).
Proof.
  unfold InitFTWithMap. destruct (initialized c) eqn:Hc; [discriminate|].
  unfold initFTWithMap. simpl.
  destruct (merge_keys _ _ _ _) as [[tbl [e1|]]|] eqn:Hm; [discriminate| |discriminate].
  destruct (loadCacheData _ _ _ _) as [[h2 ft2] [e2|]] eqn:Hload; [discriminate|].
  intros [= <- <-]. split; [done|]. split; [done|]. split; [done|].
  apply merge_keys_spec in Hm as (Hsrc & copied & Hpre & Hnone & Hpt & ->);
    [|apply NoDup_range_keys|by intros k ?; apply elem_of_range_keys].
  destruct (merged_bounds _ _ _ _ _ (reflexivity _)
              (elem_of_range_keys (deref (tables h) (Cache.data c))) Hnone Hpt)
    as (_ & _ & Hall).
  exists tbl, ft2. split; [done|]. split; [done|]. split; [by apply Hall|done].
Qed.

End CacheMore.

(** * The HTTP handlers *)
Section HandlersTheory.
Import Go Store Handlers.
Context `{!Env}.

Lemma respond_data found data :
  respond found = SentData data
  ↔ ∃ res, found = inr res ∧ Marshal res = inr data.
Proof.
  unfold respond. destruct found as [err|res].
  - split; [done|]. by intros (? & ? & _).
  - destruct (Marshal res) as [err|d] eqn:Hm; split.
    + done.
    + intros (res' & [= <-] & ?). congruence.
    + intros [= ->]. by exists res.
    + intros (res' & [= <-] & ?). congruence.
Qed.

(** X22.  A request without a query, or with an empty one, is answered with the
    error of the handler without a look at the other parameters or at the
    cache; in SearchWithKey the missing query wins over a missing key, and
    a missing key over the limit. *)
Theorem handlers_reject_empty_query c ctx :
  (Query ctx "query" = EmptyString →
   Search c ctx = SentError "query not provided"
   ∧ SearchOneWord c ctx = SentError "invalid query"
   ∧ SearchValues c ctx = SentError "invalid query"
   ∧ SearchWithKey c ctx = SentError "invalid query")
  ∧ (Query ctx "query" ≠ EmptyString → Query ctx "key" = EmptyString →
     SearchWithKey c ctx = SentError "invalid key").
Proof.
  unfold Search, SearchOneWord, SearchValues, SearchWithKey. split.
  - intros ->. done.
  - intros Hq ->. simpl.
    destruct (slen (Query ctx "query") =? 0)%Z eqn:Hz; [|done].
    by apply slen_zero in Hz.
Qed.

(** X23.  A handler sends data exactly when the query (and the key) is not
    empty, the parsers of its parameters succeed, the search of the cache
    with those parameters succeeds and its result can be marshalled; the
    data is that marshalled result. *)
Theorem handlers_send_data c ctx data :
  (Search c ctx = SentData data ↔
     ∃ limit strict res,
       Query ctx "query" ≠ EmptyString
       ∧ GetLimitParam ctx = inr limit ∧ GetStrictParam ctx = inr strict
       ∧ cache_Search c (mkSearchParams (Query ctx "query") limit strict ∅ EmptyString)
         = inr res
       ∧ Marshal res = inr data)
  ∧ (SearchOneWord c ctx = SentData data ↔
       ∃ limit strict res,
         Query ctx "query" ≠ EmptyString
         ∧ GetLimitParam ctx = inr limit ∧ GetStrictParam ctx = inr strict
         ∧ cache_SearchOneWord c
             (mkSearchParams (Query ctx "query") limit strict ∅ EmptyString) = inr res
         ∧ Marshal res = inr data)
  ∧ (SearchValues c ctx = SentData data ↔
       ∃ limit schema res,
         Query ctx "query" ≠ EmptyString
         ∧ GetLimitParam ctx = inr limit ∧ GetSchemaParam ctx = inr schema
         ∧ cache_SearchValues c
             (mkSearchParams (Query ctx "query") limit false schema EmptyString) = inr res
         ∧ Marshal res = inr data)
  ∧ (SearchWithKey c ctx = SentData data ↔
       ∃ limit res,
         Query ctx "query" ≠ EmptyString ∧ Query ctx "key" ≠ EmptyString
         ∧ GetLimitParam ctx = inr limit
         ∧ cache_SearchWithKey c
             (mkSearchParams (Query ctx "query") limit false ∅ (Query ctx "key")) = inr res
         ∧ Marshal res = inr data).
Proof.
  unfold Search, SearchOneWord, SearchValues, SearchWithKey.
  destruct (slen (Query ctx "query") =? 0)%Z eqn:Hq.
  { apply slen_zero in Hq. repeat split; try done; naive_solver. }
  assert (Hq' : Query ctx "query" ≠ EmptyString).
  { intros He. apply slen_zero in He. congruence. }
  split; [|split; [|split]].
  - destruct (GetLimitParam ctx) as [e|limit]; [split; [done|by intros (? & ? & ? & ? & ? & ?)]|].
    destruct (GetStrictParam ctx) as [e|strict];
      [split; [done|by intros (? & ? & ? & ? & ? & ? & ?)]|].
    rewrite respond_data. split.
    + intros (res & ? & ?). by exists limit, strict, res.
    + intros (? & ? & res & _ & [= <-] & [= <-] & ? & ?). by exists res.
  - destruct (GetLimitParam ctx) as [e|limit]; [split; [done|by intros (? & ? & ? & ? & ? & ?)]|].
    destruct (GetStrictParam ctx) as [e|strict];
      [split; [done|by intros (? & ? & ? & ? & ? & ? & ?)]|].
    rewrite respond_data. split.
    + intros (res & ? & ?). by exists limit, strict, res.
    + intros (? & ? & res & _ & [= <-] & [= <-] & ? & ?). by exists res.
  - destruct (GetLimitParam ctx) as [e|limit]; [split; [done|by intros (? & ? & ? & ? & ? & ?)]|].
    destruct (GetSchemaParam ctx) as [e|schema];
      [split; [done|by intros (? & ? & ? & ? & ? & ? & ?)]|].
    rewrite respond_data. split.
    + intros (res & ? & ?). by exists limit, schema, res.
    + intros (? & ? & res & _ & [= <-] & [= <-] & ? & ?). by exists res.
  - destruct (slen (Query ctx "key") =? 0)%Z eqn:Hk.
    { apply slen_zero in Hk. split; [done|]. by intros (? & ? & ? & ? & ?). }
    assert (Hk' : Query ctx "key" ≠ EmptyString).
    { intros He. apply slen_zero in He. congruence. }
    destruct (GetLimitParam ctx) as [e|limit]; [split; [done|by intros (? & ? & ? & ? & ? & ?)]|].
    rewrite respond_data. split.
    + intros (res & ? & ?). by exists limit, res.
    + intros (? & res & _ & _ & [= <-] & ? & ?). by exists res.
Qed.

End HandlersTheory.

(** * The further properties on concrete states *)
Section MoreInstances.
Import Go Store Examples.

Ltac run := vm_compute; reflexivity.
Ltac decided := apply (bool_decide_unpack _); vm_compute; exact I.

Lemma shop_search_red :
  FTS._Search Model.contains shop "red" 10 false
  = Some ([Some 1%positive; Some 2%positive; Some 3%positive], [-1; -1; -1]%Z).
Proof. run. Defined.

Lemma nonstrict_search_no_repeat_witness :
  NoDup [Some 1%positive; Some 2%positive; Some 3%positive].
Proof.
  assert (Hj : NoDup (FTS.json shop)) by decided.
  exact (nonstrict_search_no_repeat Model.contains shop "red" 10 _ _ Hj shop_search_red).
Defined.

Lemma strict_search_panics_witness :
  FTS._Search Model.contains broken "red" 10 true = None
  ↔ ¬ Forall (FTS.in_range broken) [0; 5]%Z.
Proof.
  assert (Hq : "red"%string ≠ EmptyString) by discriminate.
  assert (Hp : FTS.cache broken !! "red"%string = Some [0; 5]%Z) by run.
  exact (strict_search_panics Model.contains broken "red" 10 _ Hq Hp).
Defined.

Lemma search_never_panics_witness :
  is_Some (FTS._Search Model.contains shop "red car" 1 false)
  ∧ is_Some (FTS._SearchWithSpaces Model.contains shop_heap shop "red car" 1 false by_name).
Proof.
  exact (search_never_panics Model.contains shop_heap shop "red car" 1 false by_name
           shop_wf).
Defined.

Lemma nonstrict_search_marks_witness :
  length [-1; -1; -1]%Z = length (FTS.json shop)
  ∧ length [Some 1%positive; Some 2%positive; Some 3%positive]
    = FTS.count_marks [-1; -1; -1]%Z
  ∧ (∀ i z, [-1; -1; -1]%Z !! i = Some z → z = 0%Z ∨ z = (-1)%Z)
  ∧ (∀ i, [-1; -1; -1]%Z !! i = Some (-1)%Z →
       ∃ r, FTS.json shop !! i = Some r
            ∧ r ∈ [Some 1%positive; Some 2%positive; Some 3%positive]).
Proof.
  assert (Hq : "red"%string ≠ EmptyString) by discriminate.
  exact (nonstrict_search_marks Model.contains shop "red" 10 _ _ Hq shop_search_red).
Defined.

Lemma nonstrict_search_sound_witness :
  ∃ k i, k ∈ FTS.keys shop ∧ Model.contains k "red" = true
         ∧ i ∈ default [] (FTS.cache shop !! k)
         ∧ Go.index (FTS.json shop) i = Some (Some 2%positive).
Proof.
  assert (Hin : Some 2%positive ∈ [Some 1%positive; Some 2%positive; Some 3%positive])
    by decided.
  exact (nonstrict_search_sound Model.contains shop "red" 10 _ _ _ shop_search_red Hin).
Defined.

Lemma nonstrict_search_complete_witness :
  ∃ r, Go.index (FTS.json shop) 1 = Some r
       ∧ r ∈ [Some 1%positive; Some 2%positive; Some 3%positive].
Proof.
  assert (Hq : "red"%string ≠ EmptyString) by discriminate.
  assert (Hbig : (len (FTS.json shop) < 10)%Z) by (vm_compute; reflexivity).
  assert (Hk : "red"%string ∈ FTS.keys shop) by decided.
  assert (Hc : Model.contains "red" "red" = true) by run.
  assert (Hi : 1%Z ∈ default [] (FTS.cache shop !! "red"%string)) by decided.
  exact (nonstrict_search_complete Model.contains shop "red" 10 _ _ "red" 1
           Hq Hbig shop_search_red Hk Hc Hi).
Defined.

Lemma nonstrict_search_limit_prefix_witness :
  [Some 2%positive] `prefix_of` [Some 2%positive; Some 1%positive; Some 3%positive].
Proof.
  assert (Hle : (1 ≤ 10)%Z) by lia.
  assert (H1 : FTS._Search Model.contains shelf "e" 1 false
               = Some ([Some 2%positive], [0; -1; 0]%Z)) by run.
  assert (H2 : FTS._Search Model.contains shelf "e" 10 false
               = Some ([Some 2%positive; Some 1%positive; Some 3%positive],
                       [-1; -1; -1]%Z)) by run.
  exact (nonstrict_search_limit_prefix Model.contains shelf "e" 1 10 _ _ _ _ Hle H1 H2).
Defined.

Lemma single_word_query_witness :
  FTS._SearchWithSpaces Model.contains shop_heap shop "  red " 10 false by_name
  = FTS._Search Model.contains shop (TrimSpace "  red ") 10 false.
Proof.
  assert (Hs : FTS.spaces (TrimSpace "  red ") = 0%nat) by run.
  exact (single_word_query Model.contains shop_heap shop "  red " 10 false by_name Hs).
Defined.

Lemma blank_query_witness :
  FTS._SearchWithSpaces Model.contains shop_heap broken "   " 10 true by_name
  = Some ([], []).
Proof.
  assert (Hq : TrimSpace "   " = EmptyString) by run.
  exact (blank_query Model.contains shop_heap broken "   " 10 true by_name Hq).
Defined.

Lemma multiword_search_list_witness :
  ∃ founds,
    Forall2 (λ w found, ∃ ix, FTS._Search Model.contains shop w 10 false
                              = Some (found, ix))
            (Split (TrimSpace "red car")) founds
    ∧ FTS._SearchWithSpaces Model.contains shop_heap shop "red car" 10 false by_name
      = Some (concat (FTS.repeat_matches (λ value, Model.contains value "red car")
                        by_name shop_heap <$> founds), []).
Proof.
  assert (Hl : (1 < length (Split (TrimSpace "red car")))%nat) by (vm_compute; lia).
  exact (multiword_search_list Model.contains shop_heap shop "red car" 10 false by_name
           shop_wf Hl).
Defined.

Lemma json_search_one_key_witness :
  FTS._SearchInJson Model.contains_ignore_case shop_heap shop "RED" 1
    {[ "name"%string := true ]}
  = FTS._SearchInJsonWithKey Model.contains_ignore_case shop_heap shop "RED" "name" 7.
Proof.
  assert (He : Model.contains_ignore_case EmptyString "RED" = false) by run.
  exact (json_search_one_key Model.contains_ignore_case shop_heap shop "RED" "name" 1 7 He).
Defined.

Lemma FTInit_rewrites_records_witness :
  ∃ h' c',
    @Hermes.FTInit helpers order depot fresh_cache (-1) (-1) 0 = Some (h', c', None)
    ∧ tables h' = tables depot
    ∧ Hermes.data c' = Hermes.data fresh_cache
    ∧ ∀ l, records h' !! l
           = Nat.iter (refs_to (deref (tables depot) (Hermes.data fresh_cache)) l)
               (fmap (@Hermes.extracted helpers))
               <$> records depot !! l.
Proof.
  assert (Hr : ∃ h' c',
    @Hermes.FTInit helpers order depot fresh_cache (-1) (-1) 0 = Some (h', c', None))
    by (eexists _, _; run).
  destruct Hr as (h' & c' & Hr). exists h', c'. split; [exact Hr|].
  exact (@FTInit_rewrites_records helpers order _ _ _ _ _ _ _ Hr).
Defined.

Lemma FTInit_plain_records_witness :
  @Hermes.FTInit helpers order plain_depot fresh_cache 1 1 0
  = Some (plain_depot,
          Hermes.mkCache (Hermes.data fresh_cache)
            (Some (@Hermes.empty_index helpers 1 1 0)), None).
Proof.
  assert (Hplain : ∀ l m k v, records plain_depot !! l = Some m → m !! k = Some v →
                     @Hermes.WFTGetValue helpers v = EmptyString).
  { assert (Hall : map_Forall (λ _ m, map_Forall
                      (λ _ v, @Hermes.WFTGetValue helpers v = EmptyString) m)
                     (records plain_depot)) by decided.
    intros l m k v Hl Hk. exact (Hall l m Hl k v Hk). }
  exact (@FTInit_plain_records helpers order plain_depot fresh_cache 1 1 0 eq_refl Hplain).
Defined.

Lemma FTInitWithMap_succeeds_witness :
  ∃ h' c', @Hermes.FTInitWithMap uncapped order depot fresh_cache (Some 3%positive) 1 1 0
           = Some (h', c', None).
Proof.
  assert (Hl : is_Some (tables depot !! 3%positive)) by (vm_compute; by eexists).
  assert (Hdis : ∀ k, is_Some (deref (tables depot) (Hermes.data fresh_cache) !! k) →
                      deref (tables depot) (Some 3%positive) !! k = None).
  { assert (Hall : map_Forall (λ k _, deref (tables depot) (Some 3%positive) !! k = None)
                     (deref (tables depot) (Hermes.data fresh_cache))) by decided.
    intros k [r Hk]. exact (Hall k r Hk). }
  assert (Hok : ∀ ts ft key ftv, (@Hermes.ts_insert uncapped ts ft key ftv).2 = None)
    by (intros ts ft key ftv; reflexivity).
  exact (@FTInitWithMap_succeeds uncapped order depot fresh_cache 3%positive 1 1 0
           eq_refl Hl Hdis Hok).
Defined.

Lemma FTInitWithMap_nil_map_witness :
  (deref (tables depot) (Hermes.data fresh_cache) ≠ ∅ →
   @Hermes.FTInitWithMap helpers order depot fresh_cache None (-1) (-1) 0 = None)
  ∧ (deref (tables depot) (Hermes.data fresh_cache) = ∅ →
     @Hermes.FTInitWithMap helpers order depot fresh_cache None (-1) (-1) 0
     = Some (depot,
             Hermes.mkCache None (Some (@Hermes.empty_index helpers (-1) (-1) 0)), None)).
Proof.
  exact (@FTInitWithMap_nil_map helpers order depot fresh_cache (-1) (-1) 0 eq_refl).
Defined.

Lemma InitFTWithMap_collision_resets_ft_witness :
  ∃ h' k',
    @Cache.InitFTWithMap cache_helpers order depot fresh_cache1 (Some 2%positive)
      7 9 by_name
    = Some (h',
            Cache.mkCache (Cache.data fresh_cache1)
              (Some (Cache.mkFullText ∅ 7 9 false)),
            Some (key_exists k'))
    ∧ records h' = records depot.
Proof.
  assert (Hd : is_Some (deref (tables depot) (Some 2%positive) !! "b"%string))
    by (vm_compute; by eexists).
  assert (Hs : is_Some (deref (tables depot) (Cache.data fresh_cache1) !! "b"%string))
    by (vm_compute; by eexists).
  exact (@InitFTWithMap_collision_resets_ft cache_helpers order depot fresh_cache1
           (Some 2%positive) 7 9 by_name "b" eq_refl Hd Hs).
Defined.

Lemma InitFTWithMap_success_witness :
  ∃ h' c',
    @Cache.InitFTWithMap cache_helpers order depot fresh_cache1 (Some 3%positive)
      (-1) (-1) by_name = Some (h', c', None)
    ∧ Cache.initialized fresh_cache1 = false
    ∧ Cache.initialized c' = true
    ∧ Cache.data c' = Some 3%positive.
Proof.
  assert (Hr : ∃ h' c',
    @Cache.InitFTWithMap cache_helpers order depot fresh_cache1 (Some 3%positive)
      (-1) (-1) by_name = Some (h', c', None)) by (eexists _, _; run).
  destruct Hr as (h' & c' & Hr). exists h', c'. split; [exact Hr|].
  destruct (@InitFTWithMap_success cache_helpers order _ _ _ _ _ _ _ _ Hr)
    as (H1 & H2 & H3 & _).
  auto.
Defined.

End MoreInstances.
